(** * The Watcher of apisix-seed: reconciliation, change classification, dispatch

    Shallow embedding of [internal/core/components/watcher.go].

    The watcher only orchestrates: entities, stores, discoverers and the
    message codec live in other packages.  Their operations are the fields
    of the class [Externals]; the snapshot cache of a store is a finite map.
    A call of a watcher function is a value of [Run]: the events it emitted
    (log lines, accesses to a snapshot cache and calls to discovery backends,
    in program order) together with either a Go panic or the returned value. *)

From stdpp Require Import base option gmap strings list fin_maps.

Set Default Proof Using "Type".

(** ** Go results and panics *)

(** The ways a watcher goroutine can panic. *)
Inductive GoPanic : Type :=
  | IndexOutOfRange          (* val[i] with i >= len(val) *)
  | TypeAssertion            (* x.(entity.Queer) on a value that is no Queer *)
  | PanicMsg (msg : string). (* panic("...") *)

(** [entity.Queer]: what the two methods the watcher calls answer. *)
Record Queer (Args : Type) : Type := mkQueer {
  Extract : string * string * Args;   (* id, service, args *)
  GetType : string;
}.
Arguments mkQueer {Args} _ _.
Arguments Extract {Args} _.
Arguments GetType {Args} _.

(** ** The collaborators of the watcher *)

Class Externals : Type := {
  Obj : Type;                      (* interface{} values kept by a store *)
  Args : Type;                     (* the argument bag of an entity *)
  error : Type;                    (* Go's error values *)
  Query : Type;                    (* comm.Query *)
  Update : Type;                   (* comm.Update *)
  (* package utils *)
  EventAdd : string;
  EventUpdate : string;
  EventDelete : string;
  EventAdd_neq_EventDelete : EventAdd ≠ EventDelete;   (* two cases of one switch *)
  (* package entity *)
  as_Queer : Obj → option (Queer Args);       (* the assertion obj.(entity.Queer) *)
  ServiceFilter : Obj → bool;
  ServiceUpdate : Obj → Obj → bool;
  ServiceReplace : Obj → Obj → bool;
  (* package discoverer *)
  EncodeEntityID : string → string → string;
  (* package comm *)
  NewQuery : list string → Args → error + Query;
  NewUpdate : list string → Args → Args → error + Update;
  QueryString : Query → string;
}.

Section Watcher.
Context `{Ext : Externals}.

(** ** Events observable from outside a watcher goroutine *)

Inductive LogLine : Type :=
  | InfoQuery (q : string)
  | InfoHandle (event key value : string)
  | InfoNewEntity (entityID : string)
  | InfoUpdateEntity (entityID : string)
  | InfoReplaceEntity (entityID : string)
  | InfoDeleteEntity (entityID : string)
  | WarnDecodeWatch (err : error)
  | WarnValueString (err : error)
  | WarnEncodeQuery (err : error)
  | WarnEncodeUpdate (err : error).

(** [discoverer.GetDiscoverer(typ).Query(q)] and [....Update(u)]; the error
    the backend returns is discarded by every caller. *)
Inductive Dispatch : Type :=
  | CallQuery (typ : string) (q : Query)
  | CallUpdate (typ : string) (u : Update).

(** The two calls that touch the snapshot cache of a store, each with the
    previous object it returned ([None] when the key was absent). *)
Inductive CacheOp : Type :=
  | OpStore (key : string) (objPtr : Obj) (prev : option Obj)
  | OpDelete (key : string) (prev : option Obj).

Inductive Event : Type :=
  | Log (l : LogLine)
  | Cache (op : CacheOp)
  | Call (d : Dispatch).

(** ** Runs: emitted events, then a panic or a value *)

Definition Run (A : Type) : Type := list Event * (GoPanic + A).

Definition events {A} (r : Run A) : list Event := r.1.
Definition outcome {A} (r : Run A) : GoPanic + A := r.2.

#[export] Instance Run_ret : MRet Run := λ A a, ([], inr a).
#[export] Instance Run_bind : MBind Run := λ A B k m,
  match m with
  | (tr, inl p) => (tr, inl p)
  | (tr, inr a) => let r := k a in (tr ++ r.1, r.2)
  end.

Definition emit (e : Event) : Run unit := ([e], inr tt).
Definition panic {A} (p : GoPanic) : Run A := ([], inl p).

(** The calls to discovery backends among some events, in order. *)
Fixpoint dispatched (tr : list Event) : list Dispatch :=
  match tr with
  | [] => []
  | Call d :: tr' => d :: dispatched tr'
  | _ :: tr' => dispatched tr'
  end.

(** The accesses to snapshot caches among some events, in order. *)
Fixpoint cache_ops (tr : list Event) : list CacheOp :=
  match tr with
  | [] => []
  | Cache op :: tr' => op :: cache_ops tr'
  | _ :: tr' => cache_ops tr'
  end.

(** What the successive calls of [Store] returned as previous object. *)
Fixpoint store_prevs (ops : list CacheOp) : list (option Obj) :=
  match ops with
  | [] => []
  | OpStore _ _ prev :: ops' => prev :: store_prevs ops'
  | OpDelete _ _ :: ops' => store_prevs ops'
  end.

(** [val[i]] on a slice. *)
Definition index (val : list string) (i : nat) : Run string :=
  match val !! i with
  | Some v => mret v
  | None => panic IndexOutOfRange
  end.

(** [objPtr.(entity.Queer)], the panicking form of the assertion. *)
Definition assert_Queer (objPtr : Obj) : Run (Queer Args) :=
  match as_Queer objPtr with
  | Some queer => mret queer
  | None => panic TypeAssertion
  end.

(** ** A store and its snapshot cache *)

Record GenericStore : Type := mkStore {
  Typ : string;
  StringToObjPtr : string → string → error + Obj;   (* raw value, key *)
  Stg : error + list Obj;       (* the answer of the backing storage to a listing *)
  cache : gmap string Obj;      (* key ↦ last object observed at that key *)
}.

Definition with_cache (s : GenericStore) (c : gmap string Obj) : GenericStore :=
  {| Typ := Typ s; StringToObjPtr := StringToObjPtr s; Stg := Stg s; cache := c |}.

(** Modelled from the spec: [GenericStore.List] is not in this file.
    "List(predicate) → (sequence of objects, error): synchronous bulk read",
    "bulk listing filtered by a predicate". *)
Definition List (s : GenericStore) (flt : Obj → bool) : error + list Obj :=
  match Stg s with
  | inl err => inl err
  | inr objPtrs => inr (filter (λ o, flt o = true) objPtrs)
  end.

(** Modelled from the spec: [GenericStore.Store] is not in this file.
    "Store(key, object) → (previous object or empty, existed bool): atomic
    upsert into the snapshot cache" (get-and-swap).  [Some old] stands for
    [(old, true)], [None] for [(nil, false)]. *)
Definition Store (s : GenericStore) (key : string) (objPtr : Obj)
  : option Obj * GenericStore :=
  (cache s !! key, with_cache s (<[key := objPtr]> (cache s))).

(** Modelled from the spec: [GenericStore.Delete] is not in this file.
    "Delete(key) → (object or empty, existed bool): atomic removal". *)
Definition Delete (s : GenericStore) (key : string)
  : option Obj * GenericStore :=
  (cache s !! key, with_cache s (delete key (cache s))).

(** The store as [s.Store(key, objPtr)] and [s.Delete(key)] leave it. *)
Definition stored (s : GenericStore) (key : string) (objPtr : Obj) : GenericStore :=
  (Store s key objPtr).2.

Definition removed (s : GenericStore) (key : string) : GenericStore :=
  (Delete s key).2.

(** Every cached object is service-bearing, and a [Queer]. *)
Definition service_bearing_cache (s : GenericStore) : Prop :=
  ∀ key objPtr, cache s !! key = Some objPtr →
    ServiceFilter objPtr = true ∧ is_Some (as_Queer objPtr).

(** What the unchecked assertions [objPtr.(entity.Queer)] rely on: an object
    that passes [entity.ServiceFilter] is a [Queer]. *)
Definition ServiceFilter_Queer : Prop :=
  ∀ objPtr, ServiceFilter objPtr = true → is_Some (as_Queer objPtr).

(** A cache access that stores, and hands back, service-bearing [Queer]s only. *)
Definition service_bearing_op (op : CacheOp) : Prop :=
  match op with
  | OpStore _ objPtr prev =>
      ServiceFilter objPtr = true ∧ is_Some (as_Queer objPtr) ∧
      ∀ oldObjPtr, prev = Some oldObjPtr →
        ServiceFilter oldObjPtr = true ∧ is_Some (as_Queer oldObjPtr)
  | OpDelete _ prev =>
      ∀ oldObjPtr, prev = Some oldObjPtr →
        ServiceFilter oldObjPtr = true ∧ is_Some (as_Queer oldObjPtr)
  end.

(** ** Message encoding helpers *)

Definition encodeQuery (event typ : string) (queer : Queer Args) : error + Query :=
  let '(id, service, args) := Extract queer in
  let entityID := EncodeEntityID typ id in
  let headerVals := [event; entityID; service] in
  match NewQuery headerVals args with
  | inl err => inl err
  | inr query => inr query
  end.

Definition encodeUpdate (oldQueer newQueer : Queer Args) : error + Update :=
  let '(_, service, args) := Extract oldQueer in
  let '(_, _, newArgs) := Extract newQueer in
  let headerVals := [EventUpdate; service] in
  match NewUpdate headerVals args newArgs with
  | inl err => inl err
  | inr update => inr update
  end.

(** ** Reconciliation: [handleQuery] and [Init] *)

Definition handleQuery (objPtr : Obj) (typ : string) : Run unit :=
  queer ← assert_Queer objPtr;
  match encodeQuery EventAdd typ queer with
  | inl err => emit (Log (WarnEncodeQuery err))
  | inr query =>
      emit (Log (InfoQuery (QueryString query)));;
      emit (Call (CallQuery (GetType queer) query))
  end.

(** The goroutines of one batch take a permit each and then run
    concurrently; [handleQueries] is the schedule in which they run one after
    the other in the order they were spawned.  A panic in any of them ends
    the process. *)
Fixpoint handleQueries (objPtrs : list Obj) (typ : string) : Run unit :=
  match objPtrs with
  | [] => mret tt
  | objPtr :: objPtrs' => handleQuery objPtr typ;; handleQueries objPtrs' typ
  end.

(** [Init] over the stores [storer.GetStores()] returns; the stores are
    handed back as the reconciliation leaves them. *)
Fixpoint Init (stores : list GenericStore) : Run (list GenericStore) :=
  match stores with
  | [] => mret []
  | s :: stores' =>
      match List s ServiceFilter with
      | inl err => panic (PanicMsg "storer list error")
      | inr objPtrs =>
          handleQueries objPtrs (Typ s);;
          stores'' ← Init stores';
          mret (s :: stores'')
      end
  end.

(** The add-Query of a listed entity of a store. *)
Definition reconciles (stores : list GenericStore) (d : Dispatch) : Prop :=
  ∃ s objPtrs objPtr queer query,
    s ∈ stores ∧ List s ServiceFilter = inr objPtrs ∧ objPtr ∈ objPtrs ∧
    as_Queer objPtr = Some queer ∧
    encodeQuery EventAdd (Typ s) queer = inr query ∧
    d = CallQuery (GetType queer) query.

(** ** Change classification: [handleValue] *)

Definition handleValue (s : GenericStore) (val : list string) : Run GenericStore :=
  val0 ← index val 0;
  val1 ← index val 1;
  val2 ← index val 2;
  emit (Log (InfoHandle val0 val1 val2));;
  if decide (val0 = EventAdd) then
    match StringToObjPtr s val2 val1 with
    | inl err => emit (Log (WarnValueString err));; mret s
    | inr objPtr =>
      if negb (ServiceFilter objPtr) then mret s
      else
        let entityID := EncodeEntityID (Typ s) val1 in
        queer ← assert_Queer objPtr;
        let '(oldObjPtr, s') := Store s val1 objPtr in
        emit (Cache (OpStore val1 objPtr oldObjPtr));;
        match oldObjPtr with
        | None =>
            emit (Log (InfoNewEntity entityID));;
            match encodeQuery EventAdd (Typ s) queer with
            | inl err => emit (Log (WarnEncodeQuery err));; mret s'
            | inr query =>
                emit (Call (CallQuery (GetType queer) query));; mret s'
            end
        | Some oldObjPtr =>
            if ServiceUpdate oldObjPtr objPtr then
              emit (Log (InfoUpdateEntity entityID));;
              oldQueer ← assert_Queer oldObjPtr;
              match encodeUpdate oldQueer queer with
              | inl err => emit (Log (WarnEncodeUpdate err));; mret s'
              | inr update =>
                  emit (Call (CallUpdate (GetType queer) update));; mret s'
              end
            else if ServiceReplace oldObjPtr objPtr then
              emit (Log (InfoReplaceEntity entityID));;
              oldQueer ← assert_Queer oldObjPtr;
              match encodeQuery EventDelete (Typ s) oldQueer with
              | inl err => emit (Log (WarnEncodeQuery err));; mret s'
              | inr del =>
                  match encodeQuery EventAdd (Typ s) queer with
                  | inl err => emit (Log (WarnEncodeQuery err));; mret s'
                  | inr add =>
                      emit (Call (CallQuery (GetType oldQueer) del));;
                      emit (Call (CallQuery (GetType queer) add));;
                      mret s'
                  end
              end
            else mret s'
        end
    end
  else if decide (val0 = EventDelete) then
    let '(objPtr, s') := Delete s val1 in
    emit (Cache (OpDelete val1 objPtr));;
    match objPtr with
    | Some objPtr =>
        let entityID := EncodeEntityID (Typ s) val1 in
        emit (Log (InfoDeleteEntity entityID));;
        queer ← assert_Queer objPtr;
        match encodeQuery EventDelete (Typ s) queer with
        | inl err => emit (Log (WarnEncodeQuery err));; mret s'
        | inr query =>
            emit (Call (CallQuery (GetType queer) query));; mret s'
        end
    | None => mret s'
    end
  else mret s.

(** ** The watch loop: [handleWatch] *)

(** One batch: the decoded triples of one watch message, handled in the
    order they were spawned (see [handleQueries]). *)
Fixpoint handleValues (s : GenericStore) (values : list (list string))
  : Run GenericStore :=
  match values with
  | [] => mret s
  | val :: values' => s' ← handleValue s val; handleValues s' values'
  end.

(** The loop of [handleWatch] over the messages received on the watch
    channel before the context is cancelled; each message is given by what
    [watch.Decode()] answers for it. *)
Fixpoint handleWatch (s : GenericStore) (ch : list (error + list (list string)))
  : Run GenericStore :=
  match ch with
  | [] => mret s
  | watch :: ch' =>
      match watch with
      | inl err => emit (Log (WarnDecodeWatch err));; handleWatch s ch'
      | inr values => s' ← handleValues s values; handleWatch s' ch'
      end
  end.

(** ** What a feed, a batch and a listing amount to *)

(** The triples of the messages of a feed that decode, batch after batch. *)
Definition decoded (ch : list (error + list (list string))) : list (list string) :=
  flat_map (λ watch, match watch with inl _ => [] | inr values => values end) ch.

(** The objects that add-kind records for [key] with these raw values hand
    to the store: the ones that decode and are service-bearing. *)
Definition diffed (s : GenericStore) (key : string) (raws : list string) : list Obj :=
  omap (λ raw, match StringToObjPtr s raw key with
               | inr objPtr => if ServiceFilter objPtr then Some objPtr else None
               | inl _ => None
               end) raws.

(** The add-Queries of the objects of a listing that encode. *)
Definition add_queries (typ : string) (objPtrs : list Obj) : list Dispatch :=
  omap (λ objPtr, match as_Queer objPtr with
                  | Some queer =>
                      match encodeQuery EventAdd typ queer with
                      | inr query => Some (CallQuery (GetType queer) query)
                      | inl _ => None
                      end
                  | None => None
                  end) objPtrs.

(** A triple that [handleValue] lets go: of a kind that is neither add nor
    delete, an add whose value does not decode or decodes to an object
    without service, or a delete of a key the cache does not hold. *)
Definition dropped (s : GenericStore) (val : list string) : Prop :=
  ∃ event key raw rest, val = event :: key :: raw :: rest ∧
    ((event ≠ EventAdd ∧ event ≠ EventDelete) ∨
     (event = EventAdd ∧
      match StringToObjPtr s raw key with
      | inl _ => True
      | inr objPtr => ServiceFilter objPtr = false
      end) ∨
     (event = EventDelete ∧ cache s !! key = None)).

(** The key a cache access is about. *)
Definition op_key (op : CacheOp) : string :=
  match op with OpStore key _ _ => key | OpDelete key _ => key end.

End Watcher.

(** ** The permit pool: [w.sem] and the goroutines it admits

    [Init] makes [w.sem], a buffered channel of [runtime.GOMAXPROCS(0)+10]
    slots.  Every spawning path ([Init] and each [handleWatch] loop) sends one
    token into the channel and then starts a goroutine; the goroutine's
    deferred function receives one token back and then calls [wg.Done()].
    The interleavings of these statements are the steps of a transition
    system over the length of the channel and the goroutines started. *)

Module PermitPool.

Inductive TaskKind : Type := HandleQuery | HandleValue.

(** Where a started goroutine stands. *)
Inductive Phase : Type :=
  | Body        (* started, its deferred [<-w.sem] not executed yet *)
  | Released    (* [<-w.sem] executed, [wg.Done()] not yet *)
  | Exited.

Record State : Type := mkState {
  sem : nat;                         (* len(w.sem) *)
  spawning : nat;                    (* spawners between [w.sem <- struct{}{}] and [go] *)
  tasks : list (TaskKind * Phase);   (* the goroutines started so far *)
}.

Definition capacity (gomaxprocs : nat) : nat := gomaxprocs + 10.

(** The state [make(chan struct{}, ...)] leaves. *)
Definition init : State := {| sem := 0; spawning := 0; tasks := [] |}.

Definition is_executing (t : TaskKind * Phase) : bool :=
  match t.2 with Body => true | _ => false end.

(** The dispatch tasks executing: goroutines in their body. *)
Definition executing (st : State) : nat :=
  length (List.filter is_executing (tasks st)).

Definition is_live (t : TaskKind * Phase) : bool :=
  match t.2 with Exited => false | _ => true end.

(** The goroutines started and not ended yet. *)
Definition live (st : State) : nat :=
  length (List.filter is_live (tasks st)).

(** The tokens in the channel are the permits of the spawners about to
    start a goroutine and of the goroutines in their body. *)
Definition permits_accounted (gomaxprocs : nat) (st : State) : Prop :=
  spawning st + executing st = sem st ∧ sem st ≤ capacity gomaxprocs.

Inductive step (gomaxprocs : nat) : State → State → Prop :=
  | step_send st :                  (* w.sem <- struct{}{}: blocks while the channel is full *)
      sem st < capacity gomaxprocs →
      step gomaxprocs st
        {| sem := S (sem st); spawning := S (spawning st); tasks := tasks st |}
  | step_go st n k :                (* go w.handleQuery(...) / go w.handleValue(...) *)
      spawning st = S n →
      step gomaxprocs st
        {| sem := sem st; spawning := n; tasks := tasks st ++ [(k, Body)] |}
  | step_receive st i k n :         (* <-w.sem: blocks while the channel is empty *)
      tasks st !! i = Some (k, Body) →
      sem st = S n →
      step gomaxprocs st
        {| sem := n; spawning := spawning st;
           tasks := <[i := (k, Released)]> (tasks st) |}
  | step_done st i k :              (* wg.Done() and the goroutine ends *)
      tasks st !! i = Some (k, Released) →
      step gomaxprocs st
        {| sem := sem st; spawning := spawning st;
           tasks := <[i := (k, Exited)]> (tasks st) |}.

Inductive reachable (gomaxprocs : nat) : State → Prop :=
  | reachable_init : reachable gomaxprocs init
  | reachable_step st st' :
      reachable gomaxprocs st → step gomaxprocs st st' →
      reachable gomaxprocs st'.

End PermitPool.

(** ** A small instance of the collaborators

    Objects are either entities with an id, a service name, an argument
    list and a discovery type, or values that are no [Queer] at all.  An
    entity is service-bearing when its service name is not empty; the codec
    rejects an argument list with an empty key. *)

Module Sample.

Inductive obj : Type :=
  | Plain (n : nat)
  | Entity (id service : string) (args : list (string * string)) (dtype : string).

Definition wellformed (args : list (string * string)) : bool :=
  forallb (λ kv, negb (String.eqb kv.1 "")) args.

Definition filter (o : obj) : bool :=
  match o with
  | Entity _ service _ _ => negb (String.eqb service "")
  | Plain _ => false
  end.

Definition update (old new : obj) : bool :=
  match old, new with
  | Entity _ s1 a1 _, Entity _ s2 a2 _ =>
      String.eqb s1 s2 && negb (bool_decide (a1 = a2))
  | _, _ => false
  end.

Definition replace (old new : obj) : bool :=
  match old, new with
  | Entity _ s1 _ _, Entity _ s2 _ _ => negb (String.eqb s1 s2)
  | _, _ => false
  end.

Definition queer (o : obj) : option (Queer (list (string * string))) :=
  match o with
  | Entity id service args dtype => Some (mkQueer (id, service, args) dtype)
  | Plain _ => None
  end.

Definition newQuery (header : list string) (args : list (string * string))
  : string + (list string * list (string * string)) :=
  if wellformed args then inr (header, args) else inl "malformed arguments".

Definition newUpdate (header : list string) (args newArgs : list (string * string))
  : string + (list string * list (string * string) * list (string * string)) :=
  if wellformed args && wellformed newArgs then inr (header, args, newArgs)
  else inl "malformed arguments".

#[local] Instance ext : Externals := {|
  Obj := obj;
  Args := list (string * string);
  error := string;
  Query := list string * list (string * string);
  Update := list string * list (string * string) * list (string * string);
  EventAdd := "add";
  EventUpdate := "update";
  EventDelete := "delete";
  EventAdd_neq_EventDelete := ltac:(discriminate);
  as_Queer := queer;
  ServiceFilter := filter;
  ServiceUpdate := update;
  ServiceReplace := replace;
  EncodeEntityID := λ typ id, typ +:+ ";" +:+ id;
  NewQuery := newQuery;
  NewUpdate := newUpdate;
  QueryString := λ q, String.concat "," q.1;
|}.

(** The raw values of the change feed. *)
Definition rawA : string := "A".   (* an entity without a service *)
Definition rawB : string := "B".   (* service svc, target T1 *)
Definition rawC : string := "C".   (* same service, other arguments *)
Definition rawD : string := "D".   (* other service, target T2 *)
Definition rawM : string := "M".   (* service svc, arguments the codec rejects *)
Definition rawN : string := "N".   (* other service, arguments the codec rejects *)

Definition decode (raw key : string) : string + obj :=
  if String.eqb raw rawA then inr (Entity key "" [] "dns")
  else if String.eqb raw rawB then inr (Entity key "svc" [("weight", "1")] "T1")
  else if String.eqb raw rawC then inr (Entity key "svc" [("weight", "2")] "T1")
  else if String.eqb raw rawD then inr (Entity key "other" [("weight", "2")] "T2")
  else if String.eqb raw rawM then inr (Entity key "svc" [("", "1")] "T1")
  else if String.eqb raw rawN then inr (Entity key "other" [("", "1")] "T2")
  else inl "invalid character".

Definition store (objPtrs : string + list obj) (c : gmap string obj) : GenericStore :=
  {| Typ := "upstreams"; StringToObjPtr := decode; Stg := objPtrs; cache := c |}.

Definition objA : obj := Entity "svc-1" "" [] "dns".
Definition objB : obj := Entity "svc-1" "svc" [("weight", "1")] "T1".
Definition objC : obj := Entity "svc-1" "svc" [("weight", "2")] "T1".
Definition objD : obj := Entity "svc-1" "other" [("weight", "2")] "T2".
Definition objM : obj := Entity "svc-1" "svc" [("", "1")] "T1".
Definition objN : obj := Entity "svc-1" "other" [("", "1")] "T2".

(** A store whose listing answers [objPtrs], with an empty snapshot cache,
    and the same store with one object cached at key svc-1. *)
Definition fresh (objPtrs : string + list obj) : GenericStore := store objPtrs ∅.
Definition holding (o : obj) : GenericStore := store (inr []) {[ "svc-1" := o ]}.

End Sample.

(** * Properties *)

Section WatcherProperties.
Context `{Ext : Externals}.

Lemma dispatched_app (tr1 tr2 : list Event) :
  dispatched (tr1 ++ tr2) = dispatched tr1 ++ dispatched tr2.
Proof.
  induction tr1 as [|[l|op|d] tr1 IH]; simpl; [done | done | done |].
  by rewrite IH.
Qed.

Lemma cache_ops_app (tr1 tr2 : list Event) :
  cache_ops (tr1 ++ tr2) = cache_ops tr1 ++ cache_ops tr2.
Proof.
  induction tr1 as [|[l|op|d] tr1 IH]; simpl; [done | done | | done].
  by rewrite IH.
Qed.

Lemma store_prevs_app (ops1 ops2 : list CacheOp) :
  store_prevs (ops1 ++ ops2) = store_prevs ops1 ++ store_prevs ops2.
Proof.
  induction ops1 as [|[k o prev|k prev] ops1 IH]; simpl; [done | | done].
  by rewrite IH.
Qed.

Lemma with_cache_id (s : GenericStore) : with_cache s (cache s) = s.
Proof. by destruct s. Qed.

(** *** What one call of [handleValue] does, branch by branch *)

Ltac run_add Hdec Hflt Hq Hc :=
  unfold handleValue, stored; simpl; rewrite decide_True by done;
  rewrite Hdec, Hflt; simpl; unfold assert_Queer; rewrite Hq; simpl;
  rewrite Hc; simpl.

Lemma handleValue_new_run s key raw objPtr queer :
  StringToObjPtr s raw key = inr objPtr →
  ServiceFilter objPtr = true →
  as_Queer objPtr = Some queer →
  cache s !! key = None →
  handleValue s [EventAdd; key; raw] =
    (Log (InfoHandle EventAdd key raw) :: Cache (OpStore key objPtr None)
       :: Log (InfoNewEntity (EncodeEntityID (Typ s) key))
       :: match encodeQuery EventAdd (Typ s) queer with
          | inl err => [Log (WarnEncodeQuery err)]
          | inr query => [Call (CallQuery (GetType queer) query)]
          end,
     inr (stored s key objPtr)).
Proof.
  intros Hdec Hflt Hq Hc. run_add Hdec Hflt Hq Hc.
  by destruct (encodeQuery _ _ _).
Qed.

Lemma handleValue_update_run s key raw objPtr queer oldObjPtr oldQueer :
  StringToObjPtr s raw key = inr objPtr →
  ServiceFilter objPtr = true →
  as_Queer objPtr = Some queer →
  cache s !! key = Some oldObjPtr →
  ServiceUpdate oldObjPtr objPtr = true →
  as_Queer oldObjPtr = Some oldQueer →
  handleValue s [EventAdd; key; raw] =
    (Log (InfoHandle EventAdd key raw) :: Cache (OpStore key objPtr (Some oldObjPtr))
       :: Log (InfoUpdateEntity (EncodeEntityID (Typ s) key))
       :: match encodeUpdate oldQueer queer with
          | inl err => [Log (WarnEncodeUpdate err)]
          | inr update => [Call (CallUpdate (GetType queer) update)]
          end,
     inr (stored s key objPtr)).
Proof.
  intros Hdec Hflt Hq Hc Hupd Hoq. run_add Hdec Hflt Hq Hc.
  rewrite Hupd; simpl. rewrite Hoq; simpl.
  by destruct (encodeUpdate _ _).
Qed.

Lemma handleValue_replace_run s key raw objPtr queer oldObjPtr oldQueer :
  StringToObjPtr s raw key = inr objPtr →
  ServiceFilter objPtr = true →
  as_Queer objPtr = Some queer →
  cache s !! key = Some oldObjPtr →
  ServiceUpdate oldObjPtr objPtr = false →
  ServiceReplace oldObjPtr objPtr = true →
  as_Queer oldObjPtr = Some oldQueer →
  handleValue s [EventAdd; key; raw] =
    (Log (InfoHandle EventAdd key raw) :: Cache (OpStore key objPtr (Some oldObjPtr))
       :: Log (InfoReplaceEntity (EncodeEntityID (Typ s) key))
       :: match encodeQuery EventDelete (Typ s) oldQueer with
          | inl err => [Log (WarnEncodeQuery err)]
          | inr del =>
              match encodeQuery EventAdd (Typ s) queer with
              | inl err => [Log (WarnEncodeQuery err)]
              | inr add => [Call (CallQuery (GetType oldQueer) del);
                            Call (CallQuery (GetType queer) add)]
              end
          end,
     inr (stored s key objPtr)).
Proof.
  intros Hdec Hflt Hq Hc Hupd Hrep Hoq. run_add Hdec Hflt Hq Hc.
  rewrite Hupd, Hrep; simpl. rewrite Hoq; simpl.
  destruct (encodeQuery EventDelete _ _); [done|].
  by destruct (encodeQuery EventAdd _ _).
Qed.

Lemma handleValue_unchanged_run s key raw objPtr queer oldObjPtr :
  StringToObjPtr s raw key = inr objPtr →
  ServiceFilter objPtr = true →
  as_Queer objPtr = Some queer →
  cache s !! key = Some oldObjPtr →
  ServiceUpdate oldObjPtr objPtr = false →
  ServiceReplace oldObjPtr objPtr = false →
  handleValue s [EventAdd; key; raw] =
    ([Log (InfoHandle EventAdd key raw); Cache (OpStore key objPtr (Some oldObjPtr))],
     inr (stored s key objPtr)).
Proof.
  intros Hdec Hflt Hq Hc Hupd Hrep. run_add Hdec Hflt Hq Hc.
  by rewrite Hupd, Hrep.
Qed.

Lemma handleValue_not_service_run s key raw objPtr :
  StringToObjPtr s raw key = inr objPtr →
  ServiceFilter objPtr = false →
  handleValue s [EventAdd; key; raw] = ([Log (InfoHandle EventAdd key raw)], inr s).
Proof.
  intros Hdec Hflt. unfold handleValue; simpl. rewrite decide_True by done.
  by rewrite Hdec, Hflt.
Qed.

Lemma handleValue_undecodable_run s key raw err :
  StringToObjPtr s raw key = inl err →
  handleValue s [EventAdd; key; raw] =
    ([Log (InfoHandle EventAdd key raw); Log (WarnValueString err)], inr s).
Proof.
  intros Hdec. unfold handleValue; simpl. rewrite decide_True by done.
  by rewrite Hdec.
Qed.

Lemma handleValue_delete_absent_run s key raw :
  cache s !! key = None →
  handleValue s [EventDelete; key; raw] =
    ([Log (InfoHandle EventDelete key raw); Cache (OpDelete key None)], inr s).
Proof.
  intros Hc. unfold handleValue; simpl.
  rewrite decide_False by (intros Heq; by apply EventAdd_neq_EventDelete).
  rewrite decide_True by done. rewrite Hc; simpl.
  by rewrite delete_id, with_cache_id.
Qed.

Lemma handleValue_delete_present_run s key raw objPtr queer :
  cache s !! key = Some objPtr →
  as_Queer objPtr = Some queer →
  handleValue s [EventDelete; key; raw] =
    (Log (InfoHandle EventDelete key raw) :: Cache (OpDelete key (Some objPtr))
       :: Log (InfoDeleteEntity (EncodeEntityID (Typ s) key))
       :: match encodeQuery EventDelete (Typ s) queer with
          | inl err => [Log (WarnEncodeQuery err)]
          | inr query => [Call (CallQuery (GetType queer) query)]
          end,
     inr (removed s key)).
Proof.
  intros Hc Hq. unfold handleValue, removed; simpl.
  rewrite decide_False by (intros Heq; by apply EventAdd_neq_EventDelete).
  rewrite decide_True by done. rewrite Hc; simpl.
  unfold assert_Queer; rewrite Hq; simpl.
  by destruct (encodeQuery _ _ _).
Qed.

(** *** Classification of add-kind records *)

(** C1 (amended).  An add-kind record whose raw value decodes to a
    service-bearing object stores that object in the snapshot cache and then
    dispatches by what the store returned, provided the message it needs can
    be encoded: no previous object, exactly one add-Query for the new object;
    a previous object and the service-update predicate holds, exactly one
    Update built from the old service name and the old and new arguments; a
    previous object, the service-update predicate fails and the
    service-replace predicate holds, a delete-Query for the old object and an
    add-Query for the new one; a previous object and neither predicate holds,
    nothing. *)
Theorem handleValue_add_classification s key raw objPtr queer :
  StringToObjPtr s raw key = inr objPtr →
  ServiceFilter objPtr = true →
  as_Queer objPtr = Some queer →
  let r := handleValue s [EventAdd; key; raw] in
  (cache s !! key = None →
   ∀ query, encodeQuery EventAdd (Typ s) queer = inr query →
     outcome r = inr (stored s key objPtr) ∧
     dispatched (events r) = [CallQuery (GetType queer) query]) ∧
  (∀ oldObjPtr oldQueer update,
     cache s !! key = Some oldObjPtr →
     as_Queer oldObjPtr = Some oldQueer →
     ServiceUpdate oldObjPtr objPtr = true →
     NewUpdate [EventUpdate; (Extract oldQueer).1.2]
       (Extract oldQueer).2 (Extract queer).2 = inr update →
     outcome r = inr (stored s key objPtr) ∧
     dispatched (events r) = [CallUpdate (GetType queer) update]) ∧
  (∀ oldObjPtr oldQueer del add,
     cache s !! key = Some oldObjPtr →
     as_Queer oldObjPtr = Some oldQueer →
     ServiceUpdate oldObjPtr objPtr = false →
     ServiceReplace oldObjPtr objPtr = true →
     encodeQuery EventDelete (Typ s) oldQueer = inr del →
     encodeQuery EventAdd (Typ s) queer = inr add →
     outcome r = inr (stored s key objPtr) ∧
     dispatched (events r) =
       [CallQuery (GetType oldQueer) del; CallQuery (GetType queer) add]) ∧
  (∀ oldObjPtr,
     cache s !! key = Some oldObjPtr →
     ServiceUpdate oldObjPtr objPtr = false →
     ServiceReplace oldObjPtr objPtr = false →
     outcome r = inr (stored s key objPtr) ∧
     dispatched (events r) = []).
Proof.
  intros Hdec Hflt Hq r. subst r. split_and!.
  - intros Hc query Henc.
    rewrite (handleValue_new_run _ _ _ _ _ Hdec Hflt Hq Hc), Henc. done.
  - intros old oq update Hc Hoq Hupd Henc.
    rewrite (handleValue_update_run _ _ _ _ _ _ _ Hdec Hflt Hq Hc Hupd Hoq).
    unfold encodeUpdate.
    destruct (Extract oq) as [[oid service] args].
    destruct (Extract queer) as [[id nservice] newArgs]. simpl in Henc.
    by rewrite Henc.
  - intros old oq del add Hc Hoq Hupd Hrep Hdel Hadd.
    rewrite (handleValue_replace_run _ _ _ _ _ _ _ Hdec Hflt Hq Hc Hupd Hrep Hoq).
    by rewrite Hdel, Hadd.
  - intros old Hc Hupd Hrep.
    by rewrite (handleValue_unchanged_run _ _ _ _ _ _ Hdec Hflt Hq Hc Hupd Hrep).
Qed.

(** C2 (amended).  When an add-kind record is classified as Replace and both
    of its queries can be encoded, the delete-Query built from the old object
    is dispatched first and the add-Query built from the new object second,
    the former to the backend of the old object's discovery type and the
    latter to the backend of the new object's. *)
Theorem handleValue_replace_order s key raw objPtr queer oldObjPtr oldQueer del add :
  StringToObjPtr s raw key = inr objPtr →
  ServiceFilter objPtr = true →
  as_Queer objPtr = Some queer →
  cache s !! key = Some oldObjPtr →
  as_Queer oldObjPtr = Some oldQueer →
  ServiceUpdate oldObjPtr objPtr = false →
  ServiceReplace oldObjPtr objPtr = true →
  NewQuery [EventDelete; EncodeEntityID (Typ s) (Extract oldQueer).1.1;
            (Extract oldQueer).1.2] (Extract oldQueer).2 = inr del →
  NewQuery [EventAdd; EncodeEntityID (Typ s) (Extract queer).1.1;
            (Extract queer).1.2] (Extract queer).2 = inr add →
  dispatched (events (handleValue s [EventAdd; key; raw])) =
    [CallQuery (GetType oldQueer) del; CallQuery (GetType queer) add].
Proof.
  intros Hdec Hflt Hq Hc Hoq Hupd Hrep Hdel Hadd.
  rewrite (handleValue_replace_run _ _ _ _ _ _ _ Hdec Hflt Hq Hc Hupd Hrep Hoq).
  unfold encodeQuery.
  destruct (Extract oldQueer) as [[oid oservice] oargs].
  destruct (Extract queer) as [[id service] args]. simpl in Hdel, Hadd.
  by rewrite Hdel, Hadd.
Qed.

(** *** Encode failures *)

Lemma handleValue_triple v0 v1 v2 rest s :
  handleValue s (v0 :: v1 :: v2 :: rest) = handleValue s [v0; v1; v2].
Proof. reflexivity. Qed.

Ltac run_cases :=
  unfold handleValue, assert_Queer, Store, Delete; simpl;
  repeat (case_match; simpl in *; simplify_eq; try done).

Ltac absent_event H :=
  repeat (apply elem_of_cons in H as [H|H]; [discriminate H|]);
  by apply elem_of_nil in H.

Lemma handleValue_warn_no_dispatch s val :
  (∃ err, Log (WarnEncodeQuery err) ∈ events (handleValue s val)
          ∨ Log (WarnEncodeUpdate err) ∈ events (handleValue s val)) →
  dispatched (events (handleValue s val)) = [].
Proof.
  destruct val as [|v0 [|v1 [|v2 rest]]]; [done..|].
  rewrite handleValue_triple. intros [err Hw]. revert Hw.
  run_cases; intros [Hw|Hw]; absent_event Hw.
Qed.

Lemma service_bearing_stored s key objPtr :
  service_bearing_cache s →
  ServiceFilter objPtr = true → is_Some (as_Queer objPtr) →
  service_bearing_cache (stored s key objPtr).
Proof.
  intros Hs Hflt Hq k o. unfold stored; simpl.
  destruct (decide (key = k)) as [->|Hne].
  - rewrite lookup_insert_eq. by intros [= <-].
  - rewrite lookup_insert_ne by done. apply Hs.
Qed.

Lemma service_bearing_removed s key :
  service_bearing_cache s → service_bearing_cache (removed s key).
Proof.
  intros Hs k o. unfold removed; simpl.
  destruct (decide (key = k)) as [->|Hne].
  - by rewrite lookup_delete_eq.
  - rewrite lookup_delete_ne by done. apply Hs.
Qed.

(** What a call of [handleValue] on a cache of service-bearing [Queer]s can
    come to: it returns, leaving such a cache; or the slice is too short; or
    the assertion on the freshly decoded object fails, before any access to
    the cache. *)
Lemma handleValue_step s val :
  service_bearing_cache s →
  match outcome (handleValue s val) with
  | inr s' => service_bearing_cache s' ∧ 3 ≤ length val
  | inl IndexOutOfRange => length val < 3
  | inl TypeAssertion =>
      cache_ops (events (handleValue s val)) = [] ∧ ¬ ServiceFilter_Queer
  | inl (PanicMsg _) => False
  end.
Proof.
  intros Hs.
  destruct val as [|v0 [|v1 [|v2 rest]]]; [simpl; lia..|].
  rewrite handleValue_triple. unfold handleValue; simpl.
  destruct (decide (v0 = EventAdd)) as [->|Hadd].
  - destruct (StringToObjPtr s v2 v1) as [err|objPtr] eqn:Hdec;
      [simpl; split; [done|lia]|].
    destruct (ServiceFilter objPtr) eqn:Hflt; simpl; [|split; [done|lia]].
    unfold assert_Queer.
    destruct (as_Queer objPtr) as [queer|] eqn:Hq; simpl.
    2:{ split; [done|]. intros HQ. destruct (HQ _ Hflt) as [q Hq']. congruence. }
    assert (service_bearing_cache (stored s v1 objPtr)) as Hs'.
    { apply service_bearing_stored; [done..|by eexists]. }
    destruct (cache s !! v1) as [old|] eqn:Hc; simpl.
    + destruct (Hs _ _ Hc) as [_ [oq Hoq]].
      destruct (ServiceUpdate old objPtr); simpl.
      { rewrite Hoq; simpl.
        destruct (encodeUpdate oq queer); simpl; (split; [done|lia]). }
      destruct (ServiceReplace old objPtr); simpl; [|split; [done|lia]].
      rewrite Hoq; simpl.
      destruct (encodeQuery EventDelete (Typ s) oq); simpl; [split; [done|lia]|].
      destruct (encodeQuery EventAdd (Typ s) queer); simpl; (split; [done|lia]).
    + destruct (encodeQuery EventAdd (Typ s) queer); simpl; (split; [done|lia]).
  - destruct (decide (v0 = EventDelete)) as [->|Hdel]; [|simpl; split; [done|lia]].
    pose proof (service_bearing_removed s v1 Hs) as Hs'.
    destruct (cache s !! v1) as [old|] eqn:Hc; simpl; [|split; [done|lia]].
    destruct (Hs _ _ Hc) as [_ [oq Hoq]].
    unfold assert_Queer. rewrite Hoq; simpl.
    destruct (encodeQuery EventDelete (Typ s) oq); simpl; (split; [done|lia]).
Qed.

(** With service-bearing objects being [Queer]s, [handleValue] returns on
    every triple. *)
Lemma handleValue_returns s val :
  ServiceFilter_Queer → service_bearing_cache s → 3 ≤ length val →
  ∃ s', outcome (handleValue s val) = inr s' ∧ service_bearing_cache s'.
Proof.
  intros HQ Hs Hlen. pose proof (handleValue_step s val Hs) as Hstep.
  destruct (outcome (handleValue s val)) as [[| |msg]|s'].
  - lia.
  - by destruct Hstep.
  - done.
  - exists s'. by destruct Hstep.
Qed.

Lemma events_bind {A B} (m : Run A) (k : A → Run B) :
  events (m ≫= k) =
    events m ++ match outcome m with inr a => events (k a) | inl _ => [] end.
Proof. destruct m as [tr [p|a]]; simpl; [|done]. by rewrite app_nil_r. Qed.

Lemma outcome_bind {A B} (m : Run A) (k : A → Run B) :
  outcome (m ≫= k) =
    match outcome m with inr a => outcome (k a) | inl p => inl p end.
Proof. by destruct m as [tr [p|a]]. Qed.

Lemma bind_returned {A B} (m : Run A) (k : A → Run B) a :
  outcome m = inr a →
  m ≫= k = (events m ++ events (k a), outcome (k a)).
Proof. destruct m as [tr [p|a']]; simpl; [done|]. by intros [= ->]. Qed.

Lemma handleValues_cons s val values s' :
  outcome (handleValue s val) = inr s' →
  handleValues s (val :: values) =
    (events (handleValue s val) ++ events (handleValues s' values),
     outcome (handleValues s' values)).
Proof.
  intros Hr. exact (bind_returned _ (λ s', handleValues s' values) _ Hr).
Qed.

Lemma bind_assoc {A B C} (m : Run A) (k : A → Run B) (k' : B → Run C) :
  (m ≫= k) ≫= k' = m ≫= (λ a, k a ≫= k').
Proof.
  destruct m as [tr [p|a]]; simpl; [done|].
  destruct (k a) as [tr' [p|b]]; simpl; [done|].
  by rewrite app_assoc.
Qed.

Lemma handleWatch_cons s val values ch :
  handleWatch s (inr (val :: values) :: ch) =
    handleValue s val ≫= (λ s', handleWatch s' (inr values :: ch)).
Proof. cbn [handleWatch handleValues]. apply bind_assoc. Qed.

(** C3 (amended).  When the encoding of a message fails while [handleValue]
    processes a record, whichever the branch (New, Update, Replace or
    Delete), the warning for that error is logged and the record dispatches
    nothing at all: in a Replace the two queries are encoded before either
    is sent, so a failure to encode one of them abandons both.  The cache
    has been written before the encoding and stays so.  [handleValue]
    returns all the same, and the records that follow in the batch, and the
    batches that follow in the loop, are processed as usual. *)
Theorem encode_failure_abandons_record s val :
  ServiceFilter_Queer → service_bearing_cache s → 3 ≤ length val →
  ∃ s', outcome (handleValue s val) = inr s' ∧
    ((∃ err, Log (WarnEncodeQuery err) ∈ events (handleValue s val)
             ∨ Log (WarnEncodeUpdate err) ∈ events (handleValue s val)) →
     dispatched (events (handleValue s val)) = []) ∧
    (∀ key raw rest objPtr queer err,
       val = EventAdd :: key :: raw :: rest →
       StringToObjPtr s raw key = inr objPtr →
       ServiceFilter objPtr = true →
       as_Queer objPtr = Some queer →
       cache s !! key = None →
       encodeQuery EventAdd (Typ s) queer = inl err →
       s' = stored s key objPtr ∧
       dispatched (events (handleValue s val)) = [] ∧
       Log (WarnEncodeQuery err) ∈ events (handleValue s val)) ∧
    (∀ key raw rest objPtr queer oldObjPtr oldQueer err,
       val = EventAdd :: key :: raw :: rest →
       StringToObjPtr s raw key = inr objPtr →
       ServiceFilter objPtr = true →
       as_Queer objPtr = Some queer →
       cache s !! key = Some oldObjPtr →
       as_Queer oldObjPtr = Some oldQueer →
       ServiceUpdate oldObjPtr objPtr = true →
       encodeUpdate oldQueer queer = inl err →
       s' = stored s key objPtr ∧
       dispatched (events (handleValue s val)) = [] ∧
       Log (WarnEncodeUpdate err) ∈ events (handleValue s val)) ∧
    (∀ key raw objPtr queer oldObjPtr oldQueer,
       val = [EventAdd; key; raw] →
       StringToObjPtr s raw key = inr objPtr →
       ServiceFilter objPtr = true →
       as_Queer objPtr = Some queer →
       cache s !! key = Some oldObjPtr →
       as_Queer oldObjPtr = Some oldQueer →
       ServiceUpdate oldObjPtr objPtr = false →
       ServiceReplace oldObjPtr objPtr = true →
       (∃ err, encodeQuery EventDelete (Typ s) oldQueer = inl err
               ∨ encodeQuery EventAdd (Typ s) queer = inl err) →
       s' = stored s key objPtr ∧
       dispatched (events (handleValue s val)) = [] ∧
       ∃ err, Log (WarnEncodeQuery err) ∈ events (handleValue s val)) ∧
    (∀ key raw rest objPtr queer oldObjPtr oldQueer,
       val = EventAdd :: key :: raw :: rest →
       StringToObjPtr s raw key = inr objPtr →
       ServiceFilter objPtr = true →
       as_Queer objPtr = Some queer →
       cache s !! key = Some oldObjPtr →
       as_Queer oldObjPtr = Some oldQueer →
       ServiceUpdate oldObjPtr objPtr = false →
       ServiceReplace oldObjPtr objPtr = true →
       (∀ err, encodeQuery EventDelete (Typ s) oldQueer = inl err →
          s' = stored s key objPtr ∧
          dispatched (events (handleValue s val)) = [] ∧
          Log (WarnEncodeQuery err) ∈ events (handleValue s val)) ∧
       (∀ del err, encodeQuery EventDelete (Typ s) oldQueer = inr del →
          encodeQuery EventAdd (Typ s) queer = inl err →
          s' = stored s key objPtr ∧
          dispatched (events (handleValue s val)) = [] ∧
          Log (WarnEncodeQuery err) ∈ events (handleValue s val))) ∧
    (∀ key raw rest objPtr queer err,
       val = EventDelete :: key :: raw :: rest →
       cache s !! key = Some objPtr →
       as_Queer objPtr = Some queer →
       encodeQuery EventDelete (Typ s) queer = inl err →
       s' = removed s key ∧
       dispatched (events (handleValue s val)) = [] ∧
       Log (WarnEncodeQuery err) ∈ events (handleValue s val)) ∧
    (∀ values ch,
       dispatched (events (handleWatch s (inr (val :: values) :: ch))) =
         dispatched (events (handleValue s val)) ++
         dispatched (events (handleWatch s' (inr values :: ch)))).
Proof.
  intros HQ Hs Hlen.
  destruct (handleValue_returns s val HQ Hs Hlen) as (s' & Hr & _).
  exists s'. split; [done|]. split; [apply handleValue_warn_no_dispatch|].
  split_and!.
  - intros key raw rest objPtr queer err -> Hdec Hflt Hq Hc Henc.
    revert Hr. rewrite handleValue_triple.
    rewrite (handleValue_new_run _ _ _ _ _ Hdec Hflt Hq Hc), Henc.
    intros [= <-]. split; [done|]. split; [done|].
    simpl. rewrite !elem_of_cons. auto.
  - intros key raw rest objPtr queer old oq err -> Hdec Hflt Hq Hc Hoq Hupd Henc.
    revert Hr. rewrite handleValue_triple.
    rewrite (handleValue_update_run _ _ _ _ _ _ _ Hdec Hflt Hq Hc Hupd Hoq), Henc.
    intros [= <-]. split; [done|]. split; [done|].
    simpl. rewrite !elem_of_cons. auto.
  - intros key raw objPtr queer old oq -> Hdec Hflt Hq Hc Hoq Hupd Hrep Hfail.
    revert Hr.
    rewrite (handleValue_replace_run _ _ _ _ _ _ _ Hdec Hflt Hq Hc Hupd Hrep Hoq).
    intros [= <-]. split; [done|]. simpl.
    destruct (encodeQuery EventDelete (Typ s) oq) as [e1|del].
    + split; [done|]. exists e1. rewrite !elem_of_cons. auto.
    + destruct (encodeQuery EventAdd (Typ s) queer) as [e2|add].
      * split; [done|]. exists e2. rewrite !elem_of_cons. auto.
      * by destruct Hfail as [err [?|?]].
  - intros key raw rest objPtr queer old oq -> Hdec Hflt Hq Hc Hoq Hupd Hrep.
    revert Hr. rewrite handleValue_triple.
    rewrite (handleValue_replace_run _ _ _ _ _ _ _ Hdec Hflt Hq Hc Hupd Hrep Hoq).
    intros [= <-]. split.
    + intros err Hdel. rewrite Hdel. split; [done|]. split; [done|].
      simpl. rewrite !elem_of_cons. auto.
    + intros del err Hdel Hadd. rewrite Hdel, Hadd. split; [done|]. split; [done|].
      simpl. rewrite !elem_of_cons. auto.
  - intros key raw rest objPtr queer err -> Hc Hq Henc.
    revert Hr. rewrite handleValue_triple.
    rewrite (handleValue_delete_present_run _ _ _ _ _ Hc Hq), Henc.
    intros [= <-]. split; [done|]. split; [done|].
    simpl. rewrite !elem_of_cons. auto.
  - intros values ch.
    rewrite handleWatch_cons, (bind_returned _ _ _ Hr).
    apply dispatched_app.
Qed.

(** *** Deletes of unknown keys *)

(** C4.  A delete-kind record whose key has no entry in the snapshot cache
    dispatches nothing and leaves the cache as it was, however many times the
    record is repeated, within one batch or over successive batches. *)
Theorem delete_unknown_key_noop s key raw n :
  cache s !! key = None →
  outcome (handleValues s (replicate n [EventDelete; key; raw])) = inr s ∧
  dispatched (events (handleValues s (replicate n [EventDelete; key; raw]))) = [] ∧
  outcome (handleWatch s (replicate n (inr [[EventDelete; key; raw]]))) = inr s ∧
  dispatched (events (handleWatch s (replicate n (inr [[EventDelete; key; raw]])))) = [].
Proof.
  intros Hc. induction n as [|n (IH1 & IH2 & IH3 & IH4)]; [done|].
  pose proof (handleValue_delete_absent_run s key raw Hc) as Hrun.
  cbn [replicate handleValues handleWatch]. rewrite Hrun. simpl.
  destruct (handleValues s (replicate n _)) as [tr [p|s1]];
    destruct (handleWatch s (replicate n _)) as [tr' [p'|s2]];
    simpl in *; by simplify_eq.
Qed.

(** *** Indexing the triple *)

(** C10.  [handleValue] reads [val[0]], [val[1]] and [val[2]] before it looks
    at the event kind: on a slice shorter than three it panics with an index
    out of range, having done nothing, and on a slice of three or more no
    index is out of range. *)
Theorem handleValue_index s val :
  (length val < 3 → handleValue s val = ([], inl IndexOutOfRange)) ∧
  (3 ≤ length val → outcome (handleValue s val) ≠ inl IndexOutOfRange ∧
     ∃ event key value, Log (InfoHandle event key value) ∈ events (handleValue s val)
       ∧ val !! 0 = Some event ∧ val !! 1 = Some key ∧ val !! 2 = Some value).
Proof.
  split; intros Hlen.
  - destruct val as [|v0 [|v1 [|v2 rest]]]; simpl in Hlen; [done..|lia].
  - destruct val as [|v0 [|v1 [|v2 rest]]]; simpl in Hlen; [lia..|].
    rewrite handleValue_triple. split.
    + run_cases.
    + exists v0, v1, v2. split; [|done].
      unfold handleValue; simpl.
      match goal with |- _ ∈ (_ :: ?tr) => generalize tr end.
      intros tr. apply elem_of_cons; by left.
Qed.

(** *** The snapshot cache *)

(** The one access [handleValue] makes to the cache, if any. *)
Lemma handleValue_cache_ops s val :
  match cache_ops (events (handleValue s val)) with
  | [] => True
  | [OpStore key objPtr prev] =>
      ServiceFilter objPtr = true ∧ is_Some (as_Queer objPtr) ∧ prev = cache s !! key
  | [OpDelete key prev] => prev = cache s !! key
  | _ => False
  end.
Proof.
  destruct val as [|v0 [|v1 [|v2 rest]]]; [done..|].
  rewrite handleValue_triple.
  run_cases; destruct (ServiceFilter _); by eauto.
Qed.

Lemma handleValue_service_bearing_ops s val :
  service_bearing_cache s →
  Forall service_bearing_op (cache_ops (events (handleValue s val))).
Proof.
  intros Hs. pose proof (handleValue_cache_ops s val) as Hops.
  destruct (cache_ops _) as [|op ops]; [constructor|].
  destruct op as [key objPtr prev|key prev], ops as [|op' ops]; try done.
  - destruct Hops as (Hflt & Hq & ->). apply Forall_singleton.
    split; [done|]. split; [done|]. intros old Hc. by eapply Hs.
  - subst prev. apply Forall_singleton. intros old Hc. by eapply Hs.
Qed.

Lemma handleValues_service_bearing_ops s values :
  service_bearing_cache s →
  Forall service_bearing_op (cache_ops (events (handleValues s values))).
Proof.
  revert s. induction values as [|val values IH]; intros s Hs; [constructor|].
  cbn [handleValues]. rewrite events_bind, cache_ops_app. apply Forall_app.
  split; [by apply handleValue_service_bearing_ops|].
  pose proof (handleValue_step s val Hs) as Hstep.
  destruct (outcome (handleValue s val)) as [p|s1]; [constructor|].
  apply IH. by destruct Hstep.
Qed.

Lemma handleValues_service_bearing_cache s values s' :
  service_bearing_cache s →
  outcome (handleValues s values) = inr s' → service_bearing_cache s'.
Proof.
  revert s. induction values as [|val values IH]; intros s Hs.
  { by intros [= <-]. }
  cbn [handleValues]. rewrite outcome_bind.
  pose proof (handleValue_step s val Hs) as Hstep.
  destruct (outcome (handleValue s val)) as [p|s1]; [done|].
  apply IH. by destruct Hstep.
Qed.

(** A failed type assertion in a batch: the record that panicked had made
    no access to the cache. *)
Lemma handleValues_assertion_fresh s values :
  service_bearing_cache s →
  outcome (handleValues s values) = inl TypeAssertion →
  ∃ values1 val values2 s1,
    values = values1 ++ val :: values2 ∧
    outcome (handleValues s values1) = inr s1 ∧
    outcome (handleValue s1 val) = inl TypeAssertion ∧
    cache_ops (events (handleValue s1 val)) = [].
Proof.
  revert s. induction values as [|val values IH]; intros s Hs; [done|].
  cbn [handleValues]. rewrite outcome_bind.
  pose proof (handleValue_step s val Hs) as Hstep.
  destruct (outcome (handleValue s val)) as [p|s1] eqn:Hr.
  - intros [= ->]. exists [], val, values, s. by destruct Hstep.
  - intros Hpanic. destruct Hstep as [Hs1 _].
    destruct (IH s1 Hs1 Hpanic) as (values1 & val' & values2 & s2 & -> & Hr1 & Hrest).
    exists (val :: values1), val', values2, s2. split; [done|].
    split; [|done]. cbn [handleValues]. by rewrite outcome_bind, Hr.
Qed.

(** C9.  Starting from a cache that holds service-bearing [Queer]s only (an
    empty one, say) and with the watcher alone writing it, whatever records
    [handleValue] is given: every object it stores is service-bearing and has
    passed the [Queer] assertion, so every previous object the cache hands
    back on an add or a delete is service-bearing and a [Queer], and the
    cache is left holding such objects only.  A type assertion that fails is
    never one on an object handed back by the cache: the record that panics
    has made no cache access.  A record whose decoded object is not
    service-bearing makes no cache access and leaves the store as it is. *)
Theorem cached_objects_service_bearing s values :
  service_bearing_cache s →
  Forall service_bearing_op (cache_ops (events (handleValues s values))) ∧
  (∀ s', outcome (handleValues s values) = inr s' → service_bearing_cache s') ∧
  (outcome (handleValues s values) = inl TypeAssertion →
     ∃ values1 val values2 s1,
       values = values1 ++ val :: values2 ∧
       outcome (handleValues s values1) = inr s1 ∧
       outcome (handleValue s1 val) = inl TypeAssertion ∧
       cache_ops (events (handleValue s1 val)) = []) ∧
  (∀ key raw objPtr,
     StringToObjPtr s raw key = inr objPtr → ServiceFilter objPtr = false →
     outcome (handleValue s [EventAdd; key; raw]) = inr s ∧
     cache_ops (events (handleValue s [EventAdd; key; raw])) = []).
Proof.
  intros Hs. split_and!.
  - by apply handleValues_service_bearing_ops.
  - intros s'. by apply handleValues_service_bearing_cache.
  - by apply handleValues_assertion_fresh.
  - intros key raw objPtr Hdec Hflt.
    by rewrite (handleValue_not_service_run _ _ _ _ Hdec Hflt).
Qed.

(** *** Successive add-kind records for one key *)

Lemma handleValue_add_step s key raw objPtr :
  ServiceFilter_Queer → service_bearing_cache s →
  StringToObjPtr s raw key = inr objPtr → ServiceFilter objPtr = true →
  outcome (handleValue s [EventAdd; key; raw]) = inr (stored s key objPtr) ∧
  cache_ops (events (handleValue s [EventAdd; key; raw])) =
    [OpStore key objPtr (cache s !! key)].
Proof.
  intros HQ Hs Hdec Hflt. destruct (HQ _ Hflt) as [queer Hq].
  destruct (cache s !! key) as [old|] eqn:Hc.
  - destruct (Hs _ _ Hc) as [_ [oq Hoq]].
    destruct (ServiceUpdate old objPtr) eqn:Hupd.
    { rewrite (handleValue_update_run _ _ _ _ _ _ _ Hdec Hflt Hq Hc Hupd Hoq).
      split; [done|]. simpl. by destruct (encodeUpdate oq queer). }
    destruct (ServiceReplace old objPtr) eqn:Hrep.
    { rewrite (handleValue_replace_run _ _ _ _ _ _ _ Hdec Hflt Hq Hc Hupd Hrep Hoq).
      split; [done|]. simpl.
      destruct (encodeQuery EventDelete (Typ s) oq); [done|].
      by destruct (encodeQuery EventAdd (Typ s) queer). }
    by rewrite (handleValue_unchanged_run _ _ _ _ _ _ Hdec Hflt Hq Hc Hupd Hrep).
  - rewrite (handleValue_new_run _ _ _ _ _ Hdec Hflt Hq Hc).
    split; [done|]. simpl. by destruct (encodeQuery EventAdd (Typ s) queer).
Qed.

Lemma handleValues_adds s key (recs : list (string * Obj)) :
  ServiceFilter_Queer → service_bearing_cache s →
  Forall (λ rec, StringToObjPtr s rec.1 key = inr rec.2
                 ∧ ServiceFilter rec.2 = true) recs →
  ∃ s', outcome (handleValues s ((λ rec, [EventAdd; key; rec.1]) <$> recs)) = inr s' ∧
    cache s' = foldl (λ c rec, <[key := rec.2]> c) (cache s) recs ∧
    store_prevs (cache_ops (events
      (handleValues s ((λ rec, [EventAdd; key; rec.1]) <$> recs)))) =
      take (length recs) (cache s !! key :: ((λ rec, Some rec.2) <$> recs)).
Proof.
  intros HQ. revert s.
  induction recs as [|[raw objPtr] recs IH]; intros s Hs Hall.
  { by exists s. }
  apply Forall_cons in Hall as [[Hdec Hflt] Hall]. simpl in Hdec, Hflt.
  destruct (handleValue_add_step s key raw objPtr HQ Hs Hdec Hflt) as [Hr Hops].
  destruct (IH (stored s key objPtr)) as (s' & Hr' & Hc' & Hprevs).
  { apply service_bearing_stored; [done..|by apply HQ]. }
  { done. }
  exists s'. rewrite fmap_cons. cbn [fst].
  rewrite (handleValues_cons _ _ _ _ Hr). split; [done|]. split; [done|].
  unfold events at 1; cbn [fst].
  rewrite cache_ops_app, store_prevs_app, Hops, Hprevs. simpl.
  by rewrite lookup_insert_eq.
Qed.

Lemma foldl_insert_other (key k : string) (recs : list (string * Obj))
    (c : gmap string Obj) :
  k ≠ key → foldl (λ c rec, <[key := rec.2]> c) c recs !! k = c !! k.
Proof.
  intros Hne. revert c. induction recs as [|rec recs IH]; intros c; [done|].
  simpl. rewrite IH. by rewrite lookup_insert_ne.
Qed.

(** C5 (amended).  After [handleValue] has processed, in order, N add-kind
    records for one key, each of which decodes to a service-bearing object,
    the snapshot cache holds exactly the Nth decoded object at that key (and
    what it held at the other keys), and the previous objects the atomic
    store returned, step by step, are what the cache held at the key
    beforehand followed by the first N-1 decoded objects in order. *)
Theorem snapshot_monotonicity s key (recs : list (string * Obj)) rawN objN :
  ServiceFilter_Queer → service_bearing_cache s →
  Forall (λ rec, StringToObjPtr s rec.1 key = inr rec.2
                 ∧ ServiceFilter rec.2 = true) (recs ++ [(rawN, objN)]) →
  let r := handleValues s
             ((λ rec, [EventAdd; key; rec.1]) <$> (recs ++ [(rawN, objN)])) in
  ∃ s', outcome r = inr s' ∧
    cache s' !! key = Some objN ∧
    (∀ k, k ≠ key → cache s' !! k = cache s !! k) ∧
    store_prevs (cache_ops (events r)) =
      cache s !! key :: ((λ rec, Some rec.2) <$> recs).
Proof.
  intros HQ Hs Hall r.
  destruct (handleValues_adds s key _ HQ Hs Hall) as (s' & Hr & Hc & Hprevs).
  exists s'. split; [done|]. rewrite Hc. split_and!.
  - rewrite foldl_snoc. simpl. by rewrite lookup_insert_eq.
  - intros k Hne. by apply foldl_insert_other.
  - subst r. rewrite Hprevs, length_app, fmap_app. simpl.
    rewrite Nat.add_1_r. simpl. f_equal.
    apply take_app_length'. by rewrite length_fmap.
Qed.

(** *** Reconciliation *)

Lemma handleQuery_run objPtr typ queer :
  as_Queer objPtr = Some queer →
  handleQuery objPtr typ =
    (match encodeQuery EventAdd typ queer with
     | inl err => [Log (WarnEncodeQuery err)]
     | inr query => [Log (InfoQuery (QueryString query));
                     Call (CallQuery (GetType queer) query)]
     end, inr tt).
Proof.
  intros Hq. unfold handleQuery, assert_Queer. rewrite Hq; simpl.
  by destruct (encodeQuery EventAdd typ queer).
Qed.

Lemma handleQuery_cache_ops objPtr typ :
  cache_ops (events (handleQuery objPtr typ)) = [].
Proof.
  destruct (as_Queer objPtr) as [queer|] eqn:Hq.
  - rewrite (handleQuery_run _ _ _ Hq). simpl.
    by destruct (encodeQuery EventAdd typ queer).
  - unfold handleQuery, assert_Queer. by rewrite Hq.
Qed.

Lemma handleQueries_cache_ops objPtrs typ :
  cache_ops (events (handleQueries objPtrs typ)) = [].
Proof.
  induction objPtrs as [|objPtr objPtrs IH]; [done|].
  cbn [handleQueries]. rewrite events_bind, cache_ops_app, handleQuery_cache_ops.
  by destruct (outcome (handleQuery objPtr typ)).
Qed.

Lemma handleQueries_returns objPtrs typ :
  ServiceFilter_Queer → Forall (λ o, ServiceFilter o = true) objPtrs →
  outcome (handleQueries objPtrs typ) = inr tt.
Proof.
  intros HQ. induction 1 as [|objPtr objPtrs Hflt _ IH]; [done|].
  destruct (HQ _ Hflt) as [queer Hq].
  cbn [handleQueries]. by rewrite outcome_bind, (handleQuery_run _ _ _ Hq).
Qed.

Lemma List_filtered s flt objPtrs :
  List s flt = inr objPtrs → Forall (λ o, flt o = true) objPtrs.
Proof.
  unfold List. destruct (Stg s) as [err|stg]; [done|]. intros [= <-].
  apply Forall_forall. intros o Ho. by apply list_elem_of_filter in Ho as [? _].
Qed.

Lemma handleQueries_dispatched objPtrs typ :
  Forall (λ d, ∃ objPtr queer query,
            objPtr ∈ objPtrs ∧ as_Queer objPtr = Some queer ∧
            encodeQuery EventAdd typ queer = inr query ∧
            d = CallQuery (GetType queer) query)
    (dispatched (events (handleQueries objPtrs typ))).
Proof.
  induction objPtrs as [|objPtr objPtrs IH]; [constructor|].
  cbn [handleQueries]. rewrite events_bind, dispatched_app. apply Forall_app. split.
  - destruct (as_Queer objPtr) as [queer|] eqn:Hq.
    + rewrite (handleQuery_run _ _ _ Hq). simpl.
      destruct (encodeQuery EventAdd typ queer) as [err|query] eqn:Henc;
        simpl; [constructor|].
      apply Forall_singleton. exists objPtr, queer, query.
      split; [apply elem_of_cons; by left | done].
    + unfold handleQuery, assert_Queer. rewrite Hq. constructor.
  - destruct (outcome (handleQuery objPtr typ)); [constructor|].
    eapply Forall_impl; [exact IH|].
    intros d (o & queer & query & Ho & Hrest). exists o, queer, query.
    split; [apply elem_of_cons; by right | done].
Qed.

(** C6.  [Init] makes no access to any snapshot cache; when it returns, every
    store is as it was, cache included; and it returns whenever every listing
    succeeds (service-bearing objects being [Queer]s).  All it dispatches are
    add-Queries of listed entities. *)
Theorem Init_leaves_snapshot_cache stores :
  cache_ops (events (Init stores)) = [] ∧
  (∀ stores', outcome (Init stores) = inr stores' → stores' = stores) ∧
  (ServiceFilter_Queer → Forall (λ s, ∃ objPtrs, Stg s = inr objPtrs) stores →
     outcome (Init stores) = inr stores) ∧
  Forall (reconciles stores) (dispatched (events (Init stores))).
Proof.
  split_and!.
  - induction stores as [|s stores IH]; [done|].
    cbn [Init]. destruct (List s ServiceFilter) as [err|objPtrs]; [done|].
    rewrite events_bind, cache_ops_app, handleQueries_cache_ops.
    destruct (outcome (handleQueries objPtrs (Typ s))); [done|].
    rewrite events_bind, cache_ops_app, IH.
    by destruct (outcome (Init stores)).
  - induction stores as [|s stores IH]; intros stores'.
    { by intros [= <-]. }
    cbn [Init]. destruct (List s ServiceFilter) as [err|objPtrs]; [done|].
    rewrite outcome_bind.
    destruct (outcome (handleQueries objPtrs (Typ s))); [done|].
    rewrite outcome_bind.
    destruct (outcome (Init stores)) as [p|stores'']; [done|].
    intros [= <-]. f_equal. by apply IH.
  - intros HQ. induction 1 as [|s stores [objPtrs Hstg] _ IH]; [done|].
    cbn [Init]. destruct (List s ServiceFilter) as [err|listed] eqn:Hlist.
    { unfold List in Hlist. by rewrite Hstg in Hlist. }
    rewrite outcome_bind, handleQueries_returns; [|done|by eapply List_filtered].
    by rewrite outcome_bind, IH.
  - induction stores as [|s stores IH]; [constructor|].
    cbn [Init]. destruct (List s ServiceFilter) as [err|objPtrs] eqn:Hlist;
      [constructor|].
    rewrite events_bind, dispatched_app. apply Forall_app. split.
    + eapply Forall_impl; [apply handleQueries_dispatched|].
      intros d (o & queer & query & Ho & Hq & Henc & ->).
      exists s, objPtrs, o, queer, query.
      split; [apply elem_of_cons; by left | done].
    + destruct (outcome (handleQueries objPtrs (Typ s))); [constructor|].
      rewrite events_bind, dispatched_app. apply Forall_app. split.
      * eapply Forall_impl; [exact IH|].
        intros d (s0 & objs & o & queer & query & Hs0 & Hrest).
        exists s0, objs, o, queer, query.
        split; [apply elem_of_cons; by right | done].
      * destruct (outcome (Init stores)); constructor.
Qed.

Lemma handleQueries_app objPtrs1 objPtrs2 typ :
  handleQueries (objPtrs1 ++ objPtrs2) typ =
    handleQueries objPtrs1 typ ≫= (λ _, handleQueries objPtrs2 typ).
Proof.
  induction objPtrs1 as [|objPtr objPtrs1 IH].
  - simpl. by destruct (handleQueries objPtrs2 typ) as [tr [p|[]]].
  - cbn [app handleQueries]. rewrite bind_assoc.
    destruct (handleQuery objPtr typ) as [tr [p|[]]]; simpl; [done|].
    by rewrite IH.
Qed.

(** C7.  If the listing of a store fails, [Init] panics: what it has done by
    then is the reconciliation of the stores before that one, and nothing of
    that store or of the stores after it is reconciled.  An entity whose
    add-Query cannot be encoded is logged and skipped: the entities before
    and after it in the batch are handled as if it were not there. *)
Theorem Init_list_error_fatal :
  (∀ pre s post err,
     Stg s = inl err →
     events (Init (pre ++ s :: post)) = events (Init pre) ∧
     outcome (Init (pre ++ s :: post)) =
       match outcome (Init pre) with
       | inl p => inl p
       | inr _ => inl (PanicMsg "storer list error")
       end) ∧
  (∀ objPtrs1 objPtr objPtrs2 typ queer err,
     as_Queer objPtr = Some queer →
     encodeQuery EventAdd typ queer = inl err →
     handleQuery objPtr typ = ([Log (WarnEncodeQuery err)], inr tt) ∧
     (outcome (handleQueries objPtrs1 typ) = inr tt →
      handleQueries (objPtrs1 ++ objPtr :: objPtrs2) typ =
        (events (handleQueries objPtrs1 typ) ++
           Log (WarnEncodeQuery err) :: events (handleQueries objPtrs2 typ),
         outcome (handleQueries objPtrs2 typ)))).
Proof.
  split.
  - intros pre s post err Hstg.
    induction pre as [|s0 pre [IHe IHo]].
    + cbn [app Init]. unfold List. by rewrite Hstg.
    + cbn [app Init]. destruct (List s0 ServiceFilter) as [e0|objPtrs]; [done|].
      rewrite !events_bind, !outcome_bind.
      destruct (outcome (handleQueries objPtrs (Typ s0))); [done|].
      rewrite IHe, IHo.
      destruct (outcome (Init pre)); simpl; by rewrite ?app_nil_r.
  - intros objPtrs1 objPtr objPtrs2 typ queer err Hq Henc.
    pose proof (handleQuery_run _ typ _ Hq) as Hrun. rewrite Henc in Hrun.
    split; [done|]. intros Hr.
    rewrite handleQueries_app, (bind_returned _ _ _ Hr).
    cbn [handleQueries]. by rewrite Hrun.
Qed.

End WatcherProperties.

(** ** The permit pool *)

Module PermitPoolProperties.
Import PermitPool.

(** Overwriting the goroutine at index [i]: the count of executing ones moves
    by what the old and the new entry contribute. *)
Lemma executing_insert (l : list (TaskKind * Phase)) i t t' :
  l !! i = Some t →
  length (List.filter is_executing (<[i := t']> l)) + (if is_executing t then 1 else 0) =
    length (List.filter is_executing l) + (if is_executing t' then 1 else 0).
Proof.
  revert i. induction l as [|x l IH]; intros [|i] Hi; try done.
  - injection Hi as ->.
    change (<[0 := t']> (t :: l)) with (t' :: l). cbn [List.filter].
    destruct (is_executing t), (is_executing t'); cbn [length]; lia.
  - cbn [lookup list_lookup] in Hi. specialize (IH _ Hi).
    change (<[S i := t']> (x :: l)) with (x :: <[i := t']> l).
    cbn [List.filter].
    destruct (is_executing x), (is_executing t), (is_executing t');
      cbn [length]; lia.
Qed.

Lemma step_permits_accounted gomaxprocs st st' :
  permits_accounted gomaxprocs st → step gomaxprocs st st' →
  permits_accounted gomaxprocs st'.
Proof.
  intros [Heq Hle] Hstep. unfold permits_accounted.
  inversion Hstep as [st0 Hlt|st0 n k Hsp|st0 i k n Hi Hsem|st0 i k Hi]; subst;
    unfold executing in *; simpl in *.
  - lia.
  - rewrite List.filter_app, length_app. simpl. split; [lia|done].
  - pose proof (executing_insert _ _ _ (k, Released) Hi) as Hins.
    simpl in Hins. split; lia.
  - pose proof (executing_insert _ _ _ (k, Exited) Hi) as Hins.
    simpl in Hins. split; [lia|done].
Qed.

Lemma reachable_permits_accounted gomaxprocs st :
  reachable gomaxprocs st → permits_accounted gomaxprocs st.
Proof.
  induction 1 as [|st st' _ IH Hstep].
  - split; [reflexivity | unfold capacity; simpl; lia].
  - by eapply step_permits_accounted.
Qed.

(** C8.  In every state the spawning paths and the goroutines can reach from
    a fresh pool, the dispatch tasks executing, whatever their kind and
    their store, are at most [runtime.GOMAXPROCS(0) + 10]. *)
Theorem bounded_concurrency gomaxprocs st :
  reachable gomaxprocs st → executing st ≤ gomaxprocs + 10.
Proof.
  intros Hreach.
  destruct (reachable_permits_accounted _ _ Hreach) as [Heq Hle].
  unfold capacity in Hle. lia.
Qed.

End PermitPoolProperties.

(** * The properties on the small instance *)

Module Scenario.
Import Sample.
#[local] Existing Instance Sample.ext.

Lemma ServiceFilter_Queer_sample : ServiceFilter_Queer.
Proof. intros [n|id service args dtype]; [done|]. by eexists. Defined.

Lemma service_bearing_fresh objPtrs : service_bearing_cache (fresh objPtrs).
Proof.
  intros key o Hc.
  change (cache (fresh objPtrs)) with (∅ : gmap string obj) in Hc.
  by rewrite lookup_empty in Hc.
Defined.

Lemma handleValue_add_classification_witness :
  dispatched (events (handleValue (fresh (inr [])) [EventAdd; "svc-1"; rawB])) =
    [CallQuery "T1" (["add"; "upstreams;svc-1"; "svc"], [("weight", "1")])] ∧
  dispatched (events (handleValue (holding objB) [EventAdd; "svc-1"; rawC])) =
    [CallUpdate "T1" (["update"; "svc"], [("weight", "1")], [("weight", "2")])] ∧
  dispatched (events (handleValue (holding objC) [EventAdd; "svc-1"; rawD])) =
    [CallQuery "T1" (["delete"; "upstreams;svc-1"; "svc"], [("weight", "2")]);
     CallQuery "T2" (["add"; "upstreams;svc-1"; "other"], [("weight", "2")])] ∧
  dispatched (events (handleValue (holding objB) [EventAdd; "svc-1"; rawB])) = [].
Proof.
  split_and!.
  - pose proof (handleValue_add_classification (fresh (inr [])) "svc-1" rawB objB
      _ eq_refl eq_refl eq_refl) as (Hnew & _).
    exact (proj2 (Hnew eq_refl _ eq_refl)).
  - pose proof (handleValue_add_classification (holding objB) "svc-1" rawC objC
      _ eq_refl eq_refl eq_refl) as (_ & Hupd & _).
    exact (proj2 (Hupd objB _ _ eq_refl eq_refl eq_refl eq_refl)).
  - pose proof (handleValue_add_classification (holding objC) "svc-1" rawD objD
      _ eq_refl eq_refl eq_refl) as (_ & _ & Hrep & _).
    exact (proj2 (Hrep objC _ _ _ eq_refl eq_refl eq_refl eq_refl eq_refl eq_refl)).
  - pose proof (handleValue_add_classification (holding objB) "svc-1" rawB objB
      _ eq_refl eq_refl eq_refl) as (_ & _ & _ & Hsame).
    exact (proj2 (Hsame objB eq_refl eq_refl eq_refl)).
Defined.

(** The example scenario: a record without service, then a new entity, an
    update of its arguments, a replacement of its service, and its removal. *)
Example scenario_dispatches :
  dispatched (events (handleValues (fresh (inr []))
    [[EventAdd; "svc-1"; rawA]; [EventAdd; "svc-1"; rawB];
     [EventAdd; "svc-1"; rawC]; [EventAdd; "svc-1"; rawD];
     [EventDelete; "svc-1"; ""]])) =
  [CallQuery "T1" (["add"; "upstreams;svc-1"; "svc"], [("weight", "1")]);
   CallUpdate "T1" (["update"; "svc"], [("weight", "1")], [("weight", "2")]);
   CallQuery "T1" (["delete"; "upstreams;svc-1"; "svc"], [("weight", "2")]);
   CallQuery "T2" (["add"; "upstreams;svc-1"; "other"], [("weight", "2")]);
   CallQuery "T2" (["delete"; "upstreams;svc-1"; "other"], [("weight", "2")])].
Proof. reflexivity. Qed.

(** C1 as stated fails: a new service-bearing entity whose arguments the
    codec rejects is stored in the cache and no add-Query is dispatched. *)
Lemma new_entity_unencodable_no_dispatch :
  StringToObjPtr (fresh (inr [])) rawM "svc-1" = inr objM ∧
  ServiceFilter objM = true ∧
  cache (fresh (inr [])) !! "svc-1" = None ∧
  dispatched (events (handleValue (fresh (inr [])) [EventAdd; "svc-1"; rawM])) = [].
Proof. by split_and!. Qed.

(** C2 as stated fails: the cached object is one the codec rejects (it was
    cached by the run above), the new object has another service; the record
    is a Replace and neither the delete-Query nor the add-Query is dispatched. *)
Lemma replace_unencodable_delete_no_dispatch :
  outcome (handleValue (fresh (inr [])) [EventAdd; "svc-1"; rawM]) = inr (holding objM) ∧
  StringToObjPtr (holding objM) rawD "svc-1" = inr objD ∧
  ServiceFilter objD = true ∧
  cache (holding objM) !! "svc-1" = Some objM ∧
  ServiceUpdate objM objD = false ∧
  ServiceReplace objM objD = true ∧
  dispatched (events (handleValue (holding objM) [EventAdd; "svc-1"; rawD])) = [].
Proof. by split_and!. Qed.

(** C3 as stated fails: in a Replace whose delete-Query encodes and whose
    add-Query does not, the delete-Query is abandoned as well. *)
Lemma replace_unencodable_add_drops_delete :
  StringToObjPtr (holding objB) rawN "svc-1" = inr objN ∧
  ServiceFilter objN = true ∧
  cache (holding objB) !! "svc-1" = Some objB ∧
  ServiceUpdate objB objN = false ∧
  ServiceReplace objB objN = true ∧
  encodeQuery EventDelete "upstreams"
      (mkQueer ("svc-1", "svc", [("weight", "1")]) "T1") =
    inr (["delete"; "upstreams;svc-1"; "svc"], [("weight", "1")]) ∧
  encodeQuery EventAdd "upstreams" (mkQueer ("svc-1", "other", [("", "1")]) "T2") =
    inl "malformed arguments" ∧
  dispatched (events (handleValue (holding objB) [EventAdd; "svc-1"; rawN])) = [].
Proof. by split_and!. Qed.

(** C5 as stated fails: one add-kind record whose decoded object is not
    service-bearing; the cache does not hold the decoded object afterwards,
    and the store was never called. *)
Lemma non_service_bearing_record_not_cached :
  StringToObjPtr (fresh (inr [])) rawA "svc-1" = inr objA ∧
  outcome (handleValues (fresh (inr [])) [[EventAdd; "svc-1"; rawA]]) =
    inr (fresh (inr [])) ∧
  cache (fresh (inr [])) !! "svc-1" = None ∧
  store_prevs (cache_ops (events
    (handleValues (fresh (inr [])) [[EventAdd; "svc-1"; rawA]]))) = [].
Proof. by split_and!. Qed.

Lemma service_bearing_holding o :
  filter o = true → is_Some (queer o) → service_bearing_cache (holding o).
Proof.
  intros Hflt Hq key o' Hc.
  change (cache (holding o)) with ({[ "svc-1" := o ]} : gmap string obj) in Hc.
  apply lookup_singleton_Some in Hc as [_ <-]. by split.
Defined.

Lemma handleValue_replace_order_witness :
  dispatched (events (handleValue (holding objC) [EventAdd; "svc-1"; rawD])) =
    [CallQuery "T1" (["delete"; "upstreams;svc-1"; "svc"], [("weight", "2")]);
     CallQuery "T2" (["add"; "upstreams;svc-1"; "other"], [("weight", "2")])].
Proof.
  exact (handleValue_replace_order (holding objC) "svc-1" rawD objD _ objC _ _ _
           eq_refl eq_refl eq_refl eq_refl eq_refl eq_refl eq_refl eq_refl eq_refl).
Defined.

Lemma encode_failure_abandons_record_witness :
  (dispatched (events (handleValue (holding objB) [EventAdd; "svc-1"; rawN])) = [] ∧
   dispatched (events (handleWatch (holding objB)
     [inr [[EventAdd; "svc-1"; rawN]; [EventAdd; "svc-2"; rawB]];
      inr [[EventAdd; "svc-3"; rawD]]])) =
     [CallQuery "T1" (["add"; "upstreams;svc-2"; "svc"], [("weight", "1")]);
      CallQuery "T2" (["add"; "upstreams;svc-3"; "other"], [("weight", "2")])]) ∧
  (dispatched (events (handleValue (fresh (inr [])) [EventAdd; "svc-1"; rawM])) = [] ∧
   Log (WarnEncodeQuery "malformed arguments")
     ∈ events (handleValue (fresh (inr [])) [EventAdd; "svc-1"; rawM])) ∧
  (dispatched (events (handleValue (holding objB) [EventAdd; "svc-1"; rawM])) = [] ∧
   Log (WarnEncodeUpdate "malformed arguments")
     ∈ events (handleValue (holding objB) [EventAdd; "svc-1"; rawM])) ∧
  (dispatched (events (handleValue (holding objM) [EventDelete; "svc-1"; ""])) = [] ∧
   Log (WarnEncodeQuery "malformed arguments")
     ∈ events (handleValue (holding objM) [EventDelete; "svc-1"; ""])).
Proof.
  split; [|split; [|split]].
  - destruct (encode_failure_abandons_record
                (holding objB) [EventAdd; "svc-1"; rawN] ServiceFilter_Queer_sample
                (service_bearing_holding objB eq_refl (mk_is_Some _ _ eq_refl))
                ltac:(simpl; lia))
      as (s' & Hr & Hwarn & _ & _ & Hrep & _ & _ & Hloop).
    destruct (Hrep "svc-1" rawN objN _ objB _ eq_refl eq_refl eq_refl eq_refl
                eq_refl eq_refl eq_refl eq_refl
                (ex_intro _ "malformed arguments" (or_intror eq_refl)))
      as (-> & Hnone & _).
    split; [exact Hnone|].
    rewrite Hloop, Hnone. reflexivity.
  - destruct (encode_failure_abandons_record
                (fresh (inr [])) [EventAdd; "svc-1"; rawM] ServiceFilter_Queer_sample
                (service_bearing_fresh _) ltac:(simpl; lia))
      as (s' & _ & _ & Hnew & _).
    destruct (Hnew "svc-1" rawM [] objM _ "malformed arguments"
                eq_refl eq_refl eq_refl eq_refl eq_refl eq_refl)
      as (_ & Hnone & Hlog).
    split; [exact Hnone | exact Hlog].
  - destruct (encode_failure_abandons_record
                (holding objB) [EventAdd; "svc-1"; rawM] ServiceFilter_Queer_sample
                (service_bearing_holding objB eq_refl (mk_is_Some _ _ eq_refl))
                ltac:(simpl; lia))
      as (s' & _ & _ & _ & Hupd & _).
    destruct (Hupd "svc-1" rawM [] objM _ objB _ "malformed arguments"
                eq_refl eq_refl eq_refl eq_refl eq_refl eq_refl eq_refl eq_refl)
      as (_ & Hnone & Hlog).
    split; [exact Hnone | exact Hlog].
  - destruct (encode_failure_abandons_record
                (holding objM) [EventDelete; "svc-1"; ""] ServiceFilter_Queer_sample
                (service_bearing_holding objM eq_refl (mk_is_Some _ _ eq_refl))
                ltac:(simpl; lia))
      as (s' & _ & _ & _ & _ & _ & _ & Hdel & _).
    destruct (Hdel "svc-1" "" [] objM _ "malformed arguments"
                eq_refl eq_refl eq_refl eq_refl)
      as (_ & Hnone & Hlog).
    split; [exact Hnone | exact Hlog].
Defined.

Lemma delete_unknown_key_noop_witness :
  outcome (handleValues (fresh (inr [])) (replicate 3 [EventDelete; "svc-1"; ""])) =
    inr (fresh (inr [])) ∧
  dispatched (events
    (handleValues (fresh (inr [])) (replicate 3 [EventDelete; "svc-1"; ""]))) = [].
Proof.
  pose proof (delete_unknown_key_noop (fresh (inr [])) "svc-1" "" 3 eq_refl)
    as (Hout & Hnone & _).
  by split.
Defined.

Lemma snapshot_monotonicity_witness :
  ∃ s', outcome (handleValues (fresh (inr []))
          [[EventAdd; "svc-1"; rawB]; [EventAdd; "svc-1"; rawC];
           [EventAdd; "svc-1"; rawD]]) = inr s' ∧
    cache s' !! "svc-1" = Some objD ∧
    store_prevs (cache_ops (events (handleValues (fresh (inr []))
      [[EventAdd; "svc-1"; rawB]; [EventAdd; "svc-1"; rawC];
       [EventAdd; "svc-1"; rawD]]))) = [None; Some objB; Some objC].
Proof.
  destruct (snapshot_monotonicity (fresh (inr [])) "svc-1"
              [(rawB, objB); (rawC, objC)] rawD objD ServiceFilter_Queer_sample
              (service_bearing_fresh _))
    as (s' & Hout & Hlast & _ & Hprevs).
  { repeat constructor. }
  exists s'. by split_and!.
Defined.

Lemma Init_leaves_snapshot_cache_witness :
  cache_ops (events (Init [store (inr [Plain 0; objA; objB; objM]) {[ "svc-1" := objC ]};
                           fresh (inr [objD])])) = [] ∧
  outcome (Init [store (inr [Plain 0; objA; objB; objM]) {[ "svc-1" := objC ]};
                 fresh (inr [objD])]) =
    inr [store (inr [Plain 0; objA; objB; objM]) {[ "svc-1" := objC ]};
         fresh (inr [objD])].
Proof.
  pose proof (Init_leaves_snapshot_cache
                [store (inr [Plain 0; objA; objB; objM]) {[ "svc-1" := objC ]};
                 fresh (inr [objD])]) as (Hops & _ & Hret & _).
  split; [exact Hops|]. apply Hret; [exact ServiceFilter_Queer_sample|].
  repeat constructor; by eexists.
Defined.

Lemma Init_list_error_fatal_witness :
  events (Init [fresh (inr [objB]); fresh (inl "context deadline exceeded");
                fresh (inr [objD])]) =
    [Log (InfoQuery "add,upstreams;svc-1,svc");
     Call (CallQuery "T1" (["add"; "upstreams;svc-1"; "svc"], [("weight", "1")]))] ∧
  outcome (Init [fresh (inr [objB]); fresh (inl "context deadline exceeded");
                 fresh (inr [objD])]) =
    inl (PanicMsg "storer list error") ∧
  handleQueries [objB; objM; objD] "upstreams" =
    ([Log (InfoQuery "add,upstreams;svc-1,svc");
      Call (CallQuery "T1" (["add"; "upstreams;svc-1"; "svc"], [("weight", "1")]));
      Log (WarnEncodeQuery "malformed arguments");
      Log (InfoQuery "add,upstreams;svc-1,other");
      Call (CallQuery "T2" (["add"; "upstreams;svc-1"; "other"], [("weight", "2")]))],
     inr tt).
Proof.
  destruct Init_list_error_fatal as [Hlist Hskip].
  destruct (Hlist [fresh (inr [objB])] (fresh (inl "context deadline exceeded"))
              [fresh (inr [objD])] _ eq_refl) as [Hev Hout].
  split_and!.
  - exact Hev.
  - exact Hout.
  - destruct (Hskip [objB] objM [objD] "upstreams" _ _ eq_refl eq_refl) as [_ Hbatch].
    exact (Hbatch eq_refl).
Defined.

Lemma cached_objects_service_bearing_witness :
  Forall service_bearing_op (cache_ops (events (handleValues (fresh (inr []))
    [[EventAdd; "svc-1"; rawA]; [EventAdd; "svc-1"; rawB];
     [EventAdd; "svc-1"; rawC]; [EventAdd; "svc-1"; rawD];
     [EventDelete; "svc-1"; ""]]))).
Proof.
  exact (proj1 (cached_objects_service_bearing (fresh (inr [])) _
                  (service_bearing_fresh _))).
Defined.

Lemma handleValue_index_witness :
  handleValue (fresh (inr [])) [EventDelete; "svc-1"] = ([], inl IndexOutOfRange) ∧
  outcome (handleValue (fresh (inr [])) [EventDelete; "svc-1"; ""]) ≠ inl IndexOutOfRange.
Proof.
  split.
  - apply (handleValue_index (fresh (inr [])) [EventDelete; "svc-1"]). simpl. lia.
  - apply (handleValue_index (fresh (inr [])) [EventDelete; "svc-1"; ""]). simpl. lia.
Defined.

End Scenario.

Module PermitPoolScenario.
Import PermitPool PermitPoolProperties.

(** With [GOMAXPROCS] at 4: a spawner has sent its token and started one
    [handleValue] goroutine. *)
Lemma bounded_concurrency_witness :
  executing {| sem := 1; spawning := 0; tasks := [(HandleValue, Body)] |} ≤ 4 + 10.
Proof.
  apply (bounded_concurrency 4).
  eapply reachable_step.
  - eapply reachable_step; [apply reachable_init|].
    apply step_send. unfold capacity. simpl. lia.
  - apply (step_go 4 {| sem := 1; spawning := 1; tasks := [] |} 0 HandleValue).
    reflexivity.
Defined.

End PermitPoolScenario.

(** * Further properties of the watch path *)

Section WatchPath.
Context `{Ext : Externals}.

Ltac by_cases :=
  unfold handleValue, assert_Queer, Store, Delete; simpl;
  repeat (case_match; simpl in *; simplify_eq; try done).

Lemma events_pair {A} (tr : list Event) (o : GoPanic + A) : events (tr, o) = tr.
Proof. reflexivity. Qed.

(** The store [handleValue] returns: the one it was given, or that one with
    the key of the triple stored or removed. *)
Lemma handleValue_outcome s val s' :
  outcome (handleValue s val) = inr s' →
  s' = s ∨ ∃ key, val !! 1 = Some key ∧
             ((∃ objPtr, s' = stored s key objPtr) ∨ s' = removed s key).
Proof.
  destruct val as [|v0 [|v1 [|v2 rest]]]; [done..|].
  rewrite handleValue_triple. unfold stored, removed.
  by_cases; intros; simplify_eq; eauto 8.
Qed.

Lemma handleValue_frame s val s' :
  outcome (handleValue s val) = inr s' →
  Typ s' = Typ s ∧ StringToObjPtr s' = StringToObjPtr s ∧ Stg s' = Stg s ∧
  ∀ k, val !! 1 ≠ Some k → cache s' !! k = cache s !! k.
Proof.
  intros Hr. destruct (handleValue_outcome _ _ _ Hr)
    as [->|(key & Hkey & [[objPtr ->]| ->])]; [done|..];
    (split_and!; [done..|]); intros k Hk; unfold stored, removed; simpl.
  - apply lookup_insert_ne. congruence.
  - apply lookup_delete_ne. congruence.
Qed.

Lemma handleValues_frame s values s' :
  outcome (handleValues s values) = inr s' →
  Typ s' = Typ s ∧ StringToObjPtr s' = StringToObjPtr s ∧ Stg s' = Stg s ∧
  ∀ k, Forall (λ val, val !! 1 ≠ Some k) values → cache s' !! k = cache s !! k.
Proof.
  revert s. induction values as [|val values IH]; intros s.
  { by intros [= <-]. }
  cbn [handleValues]. rewrite outcome_bind.
  destruct (outcome (handleValue s val)) as [p|s1] eqn:Hr; [done|].
  intros Hrest.
  destruct (handleValue_frame _ _ _ Hr) as (HT & HD & HS & Hc).
  destruct (IH _ Hrest) as (HT' & HD' & HS' & Hc').
  split_and!; [congruence..|].
  intros k Hall. apply Forall_cons in Hall as [Hk Hall].
  rewrite Hc' by done. by apply Hc.
Qed.

(** X1.  The watch loop of a store leaves the type, the decoder and the
    backing storage of the store alone, and in its snapshot cache every key
    that is not the key of a triple it was given. *)
Theorem handleWatch_frame s ch s' :
  outcome (handleWatch s ch) = inr s' →
  Typ s' = Typ s ∧ StringToObjPtr s' = StringToObjPtr s ∧ Stg s' = Stg s ∧
  ∀ k, Forall (λ val, val !! 1 ≠ Some k) (decoded ch) →
       cache s' !! k = cache s !! k.
Proof.
  revert s. induction ch as [|[err|values] ch IH]; intros s.
  { by intros [= <-]. }
  - cbn [handleWatch]. rewrite outcome_bind. simpl. apply IH.
  - cbn [handleWatch]. rewrite outcome_bind.
    destruct (outcome (handleValues s values)) as [p|s1] eqn:Hr; [done|].
    intros Hrest.
    destruct (handleValues_frame _ _ _ Hr) as (HT & HD & HS & Hc).
    destruct (IH _ Hrest) as (HT' & HD' & HS' & Hc').
    split_and!; [congruence..|].
    intros k Hall. cbn [decoded flat_map] in Hall.
    apply Forall_app in Hall as [Hk Hall].
    rewrite Hc' by done. by apply Hc.
Qed.

(** X2.  A delete-kind record whose key holds a cached [Queer] takes the
    entry out of the cache and dispatches the delete-Query of the removed
    object to the backend of that object's discovery type; when that query
    does not encode, the entry is gone all the same and nothing is
    dispatched. *)
Theorem handleValue_delete_cached s key raw objPtr queer :
  cache s !! key = Some objPtr →
  as_Queer objPtr = Some queer →
  outcome (handleValue s [EventDelete; key; raw]) = inr (removed s key) ∧
  cache (removed s key) !! key = None ∧
  cache_ops (events (handleValue s [EventDelete; key; raw])) =
    [OpDelete key (Some objPtr)] ∧
  dispatched (events (handleValue s [EventDelete; key; raw])) =
    match encodeQuery EventDelete (Typ s) queer with
    | inr query => [CallQuery (GetType queer) query]
    | inl _ => []
    end.
Proof.
  intros Hc Hq. rewrite (handleValue_delete_present_run _ _ _ _ _ Hc Hq).
  split_and!; [done| |..].
  - unfold removed; simpl. apply lookup_delete_eq.
  - simpl. by destruct (encodeQuery EventDelete (Typ s) queer).
  - simpl. by destruct (encodeQuery EventDelete (Typ s) queer).
Qed.

Lemma removed_stored s key objPtr :
  cache s !! key = None → removed (stored s key objPtr) key = s.
Proof.
  intros Hc. unfold removed, stored; simpl. unfold with_cache; simpl.
  rewrite delete_insert_eq, delete_id by done. by destruct s.
Qed.

(** X3.  An entity that appears and then disappears: from a cache without
    the key, an add-kind record of a service-bearing [Queer] followed by a
    delete-kind record for the same key leaves the store exactly as it was,
    and what is dispatched is the add-Query of the object, if it encodes,
    then its delete-Query, if it encodes. *)
Theorem add_then_delete s key raw raw' objPtr queer :
  StringToObjPtr s raw key = inr objPtr →
  ServiceFilter objPtr = true →
  as_Queer objPtr = Some queer →
  cache s !! key = None →
  outcome (handleValues s [[EventAdd; key; raw]; [EventDelete; key; raw']]) = inr s ∧
  dispatched (events
    (handleValues s [[EventAdd; key; raw]; [EventDelete; key; raw']])) =
    match encodeQuery EventAdd (Typ s) queer with
    | inr query => [CallQuery (GetType queer) query]
    | inl _ => []
    end ++
    match encodeQuery EventDelete (Typ s) queer with
    | inr query => [CallQuery (GetType queer) query]
    | inl _ => []
    end.
Proof.
  intros Hdec Hflt Hq Hc.
  assert (cache (stored s key objPtr) !! key = Some objPtr) as Hc'.
  { unfold stored; simpl. apply lookup_insert_eq. }
  cbn [handleValues].
  rewrite (handleValue_new_run _ _ _ _ _ Hdec Hflt Hq Hc).
  rewrite (bind_returned _ _ (stored s key objPtr)) by done.
  rewrite (bind_returned _ _ (removed (stored s key objPtr) key))
    by (by rewrite (handleValue_delete_present_run _ _ raw' _ _ Hc' Hq)).
  rewrite (handleValue_delete_present_run _ _ raw' _ _ Hc' Hq).
  split.
  - simpl. by rewrite removed_stored.
  - unfold events; simpl. rewrite app_nil_r.
    change (Typ (stored s key objPtr)) with (Typ s).
    destruct (encodeQuery EventAdd (Typ s) queer);
      by destruct (encodeQuery EventDelete (Typ s) queer).
Qed.

Lemma handleValue_dropped s val :
  dropped s val →
  outcome (handleValue s val) = inr s ∧ dispatched (events (handleValue s val)) = [].
Proof.
  intros (event & key & raw & rest & -> & Hcase).
  rewrite handleValue_triple.
  destruct Hcase as [[Hadd Hdel]|[[-> Hval]|[-> Hc]]].
  - unfold handleValue; simpl. by rewrite !decide_False by done.
  - destruct (StringToObjPtr s raw key) as [err|objPtr] eqn:Hdec.
    + by rewrite (handleValue_undecodable_run _ _ _ _ Hdec).
    + by rewrite (handleValue_not_service_run _ _ _ _ Hdec Hval).
  - by rewrite (handleValue_delete_absent_run _ _ _ Hc).
Qed.

Lemma handleValues_dropped s values :
  Forall (dropped s) values →
  outcome (handleValues s values) = inr s ∧
  dispatched (events (handleValues s values)) = [].
Proof.
  induction 1 as [|val values Hval _ [IHo IHd]]; [done|].
  destruct (handleValue_dropped _ _ Hval) as [Ho Hd].
  rewrite (handleValues_cons _ _ _ _ Ho). split; [done|].
  unfold events at 1; simpl. by rewrite dispatched_app, Hd, IHd.
Qed.

(** X4.  A feed of messages that do not decode and of triples that are
    dropped (an event kind other than add and delete, an add whose value
    does not decode or decodes to an object without service, a delete of a
    key that is not cached) runs to its end, dispatches nothing and hands
    the store back as it was. *)
Theorem handleWatch_dropped s ch :
  Forall (dropped s) (decoded ch) →
  outcome (handleWatch s ch) = inr s ∧
  dispatched (events (handleWatch s ch)) = [].
Proof.
  induction ch as [|[err|values] ch IH]; intros Hall; [done|..].
  - cbn [handleWatch]. rewrite outcome_bind, events_bind. simpl. by apply IH.
  - cbn [decoded flat_map] in Hall. apply Forall_app in Hall as [Hvals Hall].
    destruct (handleValues_dropped _ _ Hvals) as [Ho Hd].
    destruct (IH Hall) as [IHo IHd].
    cbn [handleWatch]. rewrite (bind_returned _ _ _ Ho). split; [done|].
    unfold events at 1; simpl. by rewrite dispatched_app, Hd, IHd.
Qed.

(** One record: at most one cache access, on the key of the triple, at most
    two dispatches, and none without a cache access. *)
Lemma handleValue_bounds s val :
  length (cache_ops (events (handleValue s val))) ≤ 1 ∧
  length (dispatched (events (handleValue s val))) ≤
    2 * length (cache_ops (events (handleValue s val))) ∧
  Forall (λ op, val !! 1 = Some (op_key op)) (cache_ops (events (handleValue s val))).
Proof.
  destruct val as [|v0 [|v1 [|v2 rest]]]; [by repeat constructor..|].
  rewrite handleValue_triple.
  by_cases; (split_and!; [simpl; lia..|]); by repeat constructor.
Qed.

(** X5.  Over a whole feed the watch loop makes at most one cache access per
    decoded triple, each on the key of a triple of the feed, and dispatches
    at most two messages per cache access: a triple that does not reach the
    cache dispatches nothing. *)
Theorem handleWatch_bounds s ch :
  length (cache_ops (events (handleWatch s ch))) ≤ length (decoded ch) ∧
  length (dispatched (events (handleWatch s ch))) ≤
    2 * length (cache_ops (events (handleWatch s ch))) ∧
  Forall (λ op, ∃ val, val ∈ decoded ch ∧ val !! 1 = Some (op_key op))
    (cache_ops (events (handleWatch s ch))).
Proof.
  assert (∀ values s,
    length (cache_ops (events (handleValues s values))) ≤ length values ∧
    length (dispatched (events (handleValues s values))) ≤
      2 * length (cache_ops (events (handleValues s values))) ∧
    Forall (λ op, ∃ val, val ∈ values ∧ val !! 1 = Some (op_key op))
      (cache_ops (events (handleValues s values)))) as Hbatch.
  { induction values as [|val values IH]; intros s0.
    { by repeat constructor. }
    cbn [handleValues]. rewrite events_bind, cache_ops_app, dispatched_app.
    rewrite !length_app. destruct (handleValue_bounds s0 val) as (Hc & Hd & Hk).
    assert (Forall (λ op, ∃ val0, val0 ∈ val :: values ∧ val0 !! 1 = Some (op_key op))
              (cache_ops (events (handleValue s0 val)))) as Hk'.
    { eapply Forall_impl; [exact Hk|]. intros op Hop. exists val.
      split; [apply elem_of_cons; by left | done]. }
    destruct (outcome (handleValue s0 val)) as [p|s1].
    { simpl. rewrite app_nil_r. split_and!; [lia..|done]. }
    destruct (IH s1) as (Hc' & Hd' & Hk''). simpl.
    split_and!; [lia..|]. apply Forall_app. split; [done|].
    eapply Forall_impl; [exact Hk''|]. intros op (val0 & Hin & Hop).
    exists val0. split; [apply elem_of_cons; by right | done]. }
  revert s. induction ch as [|[err|values] ch IH]; intros s.
  { by repeat constructor. }
  - cbn [handleWatch]. rewrite events_bind. simpl. apply IH.
  - cbn [handleWatch decoded flat_map].
    rewrite events_bind, cache_ops_app, dispatched_app, !length_app.
    destruct (Hbatch values s) as (Hc & Hd & Hk).
    assert (Forall (λ op, ∃ val, val ∈ values ++ decoded ch
                                 ∧ val !! 1 = Some (op_key op))
              (cache_ops (events (handleValues s values)))) as Hk'.
    { eapply Forall_impl; [exact Hk|]. intros op (val & Hin & Hop). exists val.
      split; [apply elem_of_app; by left | done]. }
    destruct (outcome (handleValues s values)) as [p|s1].
    { simpl. rewrite app_nil_r. split_and!; [lia..|done]. }
    destruct (IH s1) as (Hc' & Hd' & Hk'').
    split_and!; [unfold decoded in *; lia..|]. apply Forall_app. split; [done|].
    eapply Forall_impl; [exact Hk''|]. intros op (val & Hin & Hop).
    exists val. split; [apply elem_of_app; by right | done].
Qed.

Lemma stored_same s key objPtr :
  cache s !! key = Some objPtr → stored s key objPtr = s.
Proof.
  intros Hc. unfold stored; simpl. unfold with_cache.
  rewrite insert_id by done. by destruct s.
Qed.

Lemma handleValues_replicate_unchanged s key raw objPtr queer n :
  StringToObjPtr s raw key = inr objPtr →
  ServiceFilter objPtr = true →
  as_Queer objPtr = Some queer →
  cache s !! key = Some objPtr →
  ServiceUpdate objPtr objPtr = false →
  ServiceReplace objPtr objPtr = false →
  outcome (handleValues s (replicate n [EventAdd; key; raw])) = inr s ∧
  dispatched (events (handleValues s (replicate n [EventAdd; key; raw]))) = [].
Proof.
  intros Hdec Hflt Hq Hc Hupd Hrep.
  pose proof (handleValue_unchanged_run _ _ _ _ _ _ Hdec Hflt Hq Hc Hupd Hrep) as Hrun.
  rewrite (stored_same _ _ _ Hc) in Hrun.
  induction n as [|n [IHo IHd]]; [done|].
  cbn [replicate handleValues]. rewrite (bind_returned _ _ s) by (by rewrite Hrun).
  split; [done|]. rewrite Hrun. unfold events at 1; simpl. by rewrite IHd.
Qed.

(** X6.  Redelivery changes nothing: when the cache already holds, at the
    key, the object an add-kind record decodes to, and neither predicate
    holds between that object and itself, the record, however often it is
    repeated, dispatches nothing and leaves the store exactly as it was. *)
Theorem redelivered_add_noop s key raw objPtr queer n :
  StringToObjPtr s raw key = inr objPtr →
  ServiceFilter objPtr = true →
  as_Queer objPtr = Some queer →
  cache s !! key = Some objPtr →
  ServiceUpdate objPtr objPtr = false →
  ServiceReplace objPtr objPtr = false →
  outcome (handleValues s (replicate n [EventAdd; key; raw])) = inr s ∧
  dispatched (events (handleValues s (replicate n [EventAdd; key; raw]))) = [].
Proof. apply handleValues_replicate_unchanged. Qed.

(** X7.  A registration that failed is not tried again: when the add-Query
    of a new entity does not encode, the entity is in the cache
    nevertheless, so the same record delivered again, any number of times,
    is diffed against itself and dispatches nothing (neither predicate
    holding between the object and itself). *)
Theorem failed_add_not_retried s key raw objPtr queer err n :
  StringToObjPtr s raw key = inr objPtr →
  ServiceFilter objPtr = true →
  as_Queer objPtr = Some queer →
  cache s !! key = None →
  encodeQuery EventAdd (Typ s) queer = inl err →
  ServiceUpdate objPtr objPtr = false →
  ServiceReplace objPtr objPtr = false →
  outcome (handleValues s (replicate (S n) [EventAdd; key; raw])) =
    inr (stored s key objPtr) ∧
  dispatched (events (handleValues s (replicate (S n) [EventAdd; key; raw]))) = [].
Proof.
  intros Hdec Hflt Hq Hc Henc Hupd Hrep.
  pose proof (handleValue_new_run _ _ _ _ _ Hdec Hflt Hq Hc) as Hrun.
  rewrite Henc in Hrun.
  destruct (handleValues_replicate_unchanged (stored s key objPtr) key raw objPtr
              queer n) as [Ho Hd]; [done..| |done|done|].
  { unfold stored; simpl. apply lookup_insert_eq. }
  cbn [replicate handleValues].
  rewrite (bind_returned _ _ (stored s key objPtr)) by (by rewrite Hrun).
  split; [done|]. rewrite Hrun. unfold events at 1; simpl. by rewrite Hd.
Qed.

(** X8.  After any sequence of add-kind records for one key, whether their
    values decode or not and whether the objects bear a service or not, the
    cache holds at that key the last object that decoded and was
    service-bearing (what it held before, if there was none), and the store
    was called once for each such object, returning the one before it. *)
Theorem cache_holds_last_diffed s key raws :
  ServiceFilter_Queer → service_bearing_cache s →
  ∃ s', outcome (handleValues s ((λ raw, [EventAdd; key; raw]) <$> raws)) = inr s' ∧
    cache s' !! key =
      match last (diffed s key raws) with
      | Some objPtr => Some objPtr
      | None => cache s !! key
      end ∧
    store_prevs (cache_ops (events
      (handleValues s ((λ raw, [EventAdd; key; raw]) <$> raws)))) =
      take (length (diffed s key raws))
           (cache s !! key :: (Some <$> diffed s key raws)).
Proof.
  intros HQ. revert s. induction raws as [|raw raws IH]; intros s Hs.
  { by exists s. }
  rewrite fmap_cons. cbn [handleValues diffed omap list_omap].
  destruct (StringToObjPtr s raw key) as [err|objPtr] eqn:Hdec.
  - destruct (IH s Hs) as (s' & Ho & Hc & Hp). exists s'.
    rewrite (handleValue_undecodable_run _ _ _ _ Hdec).
    rewrite (bind_returned _ _ s) by done. by split_and!.
  - destruct (ServiceFilter objPtr) eqn:Hflt.
    + destruct (handleValue_add_step s key raw objPtr HQ Hs Hdec Hflt) as [Hr Hops].
      destruct (IH (stored s key objPtr)) as (s' & Ho & Hc & Hp).
      { apply service_bearing_stored; [done..|by apply HQ]. }
      change (diffed (stored s key objPtr) key raws) with (diffed s key raws)
        in Hc, Hp.
      exists s'. rewrite (bind_returned _ _ _ Hr). split_and!; [done|..].
      * rewrite Hc. fold (diffed s key raws).
        destruct (diffed s key raws) as [|o os] eqn:Hd; simpl.
        -- unfold stored; simpl. apply lookup_insert_eq.
        -- destruct (last (o :: os)) eqn:Hl; [done|]. by apply last_None in Hl.
      * rewrite events_pair, cache_ops_app, store_prevs_app, Hops, Hp.
        fold (diffed s key raws). simpl. f_equal. f_equal.
        unfold stored; simpl. by rewrite lookup_insert_eq.
    + destruct (IH s Hs) as (s' & Ho & Hc & Hp). exists s'.
      rewrite (handleValue_not_service_run _ _ _ _ Hdec Hflt).
      rewrite (bind_returned _ _ s) by done. by split_and!.
Qed.

(** X10.  The watch loop keeps the cache of a store a cache of
    service-bearing [Queer]s over a whole feed, messages that do not decode
    included: every object it stores and every previous object the cache
    hands back along the way is one, and so is every object cached when the
    loop ends. *)
Theorem handleWatch_service_bearing s ch :
  service_bearing_cache s →
  Forall service_bearing_op (cache_ops (events (handleWatch s ch))) ∧
  (∀ s', outcome (handleWatch s ch) = inr s' → service_bearing_cache s').
Proof.
  revert s. induction ch as [|[err|values] ch IH]; intros s Hs.
  { split; [constructor|]. by intros s' [= <-]. }
  - cbn [handleWatch]. rewrite outcome_bind, events_bind. simpl. by apply IH.
  - cbn [handleWatch]. rewrite outcome_bind, events_bind, cache_ops_app.
    pose proof (handleValues_service_bearing_ops s values Hs) as Hops.
    pose proof (handleValues_service_bearing_cache s values) as Hinv.
    destruct (outcome (handleValues s values)) as [p|s1].
    { simpl. rewrite app_nil_r. by split. }
    destruct (IH s1) as [Hops' Hinv']; [by apply Hinv|].
    split; [|done]. apply Forall_app. by split.
Qed.

End WatchPath.

(** * Further properties of reconciliation *)

Section Reconciliation.
Context `{Ext : Externals}.

Lemma handleQueries_add_queries objPtrs typ :
  ServiceFilter_Queer → Forall (λ o, ServiceFilter o = true) objPtrs →
  dispatched (events (handleQueries objPtrs typ)) = add_queries typ objPtrs.
Proof.
  intros HQ. induction 1 as [|objPtr objPtrs Hflt _ IH]; [done|].
  destruct (HQ _ Hflt) as [queer Hq].
  cbn [handleQueries add_queries omap list_omap].
  rewrite events_bind, dispatched_app, (handleQuery_run _ _ _ Hq), Hq. simpl.
  fold (add_queries typ objPtrs). rewrite IH.
  by destruct (encodeQuery EventAdd typ queer).
Qed.

(** X11.  When every listing succeeds (and service-bearing objects are
    [Queer]s), [Init] returns and what it has dispatched is, counted with
    multiplicity and in no particular order, the add-Queries of the listed
    service-bearing objects that encode: one per such object, none for an
    object without service or one that does not encode.  For one batch this
    holds in whichever order its goroutines run. *)
Theorem Init_dispatches_each_once stores :
  ServiceFilter_Queer →
  Forall (λ s, ∃ objPtrs, Stg s = inr objPtrs) stores →
  outcome (Init stores) = inr stores ∧
  dispatched (events (Init stores)) ≡ₚ
    flat_map (λ s, match Stg s with
                   | inr objPtrs =>
                       add_queries (Typ s)
                         (filter (λ o, ServiceFilter o = true) objPtrs)
                   | inl _ => []
                   end) stores ∧
  (∀ typ objPtrs objPtrs',
     Forall (λ o, ServiceFilter o = true) objPtrs →
     objPtrs' ≡ₚ objPtrs →
     outcome (handleQueries objPtrs' typ) = inr tt ∧
     dispatched (events (handleQueries objPtrs' typ)) ≡ₚ add_queries typ objPtrs).
Proof.
  intros HQ Hall. split_and!.
  - induction Hall as [|s stores [objPtrs Hstg] _ IHo]; [done|].
    cbn [Init]. unfold List. rewrite Hstg.
    rewrite outcome_bind, handleQueries_returns; [|done|].
    + by rewrite outcome_bind, IHo.
    + apply Forall_forall. intros o Ho.
      by apply list_elem_of_filter in Ho as [? _].
  - induction Hall as [|s stores [objPtrs Hstg] Hall IHd]; [done|].
    cbn [Init flat_map]. unfold List. rewrite Hstg.
    assert (Forall (λ o, ServiceFilter o = true)
              (filter (λ o, ServiceFilter o = true) objPtrs)) as Hflt.
    { apply Forall_forall. intros o Ho. by apply list_elem_of_filter in Ho as [? _]. }
    rewrite events_bind, dispatched_app.
    rewrite (handleQueries_returns _ _ HQ Hflt).
    rewrite (handleQueries_add_queries _ _ HQ Hflt).
    rewrite events_bind, dispatched_app, IHd.
    destruct (outcome (Init stores)); simpl; by rewrite app_nil_r.
  - intros typ objPtrs objPtrs' Hflt Hperm.
    assert (Forall (λ o, ServiceFilter o = true) objPtrs') as Hflt'.
    { by rewrite Hperm. }
    split; [by apply handleQueries_returns|].
    rewrite (handleQueries_add_queries _ _ HQ Hflt').
    unfold add_queries. by rewrite Hperm.
Qed.

End Reconciliation.

(** * Further properties of the permit pool *)

Module PermitPoolFurther.
Import PermitPool PermitPoolProperties.

Lemma executing_Body (l : list (TaskKind * Phase)) i k :
  l !! i = Some (k, Body) → 1 ≤ length (List.filter is_executing l).
Proof.
  intros Hi. pose proof (executing_insert l i (k, Body) (k, Released) Hi) as Hins.
  simpl in Hins. lia.
Qed.

Lemma executing_no_Body (l : list (TaskKind * Phase)) :
  Forall (λ t, t.2 ≠ Body) l → length (List.filter is_executing l) = 0.
Proof.
  induction 1 as [|[k ph] l Hph _ IH]; [done|].
  cbn [List.filter]. unfold is_executing at 1. simpl in *. by destruct ph.
Qed.

Lemma count_replicate (f : TaskKind * Phase → bool) n t :
  length (List.filter f (replicate n t)) = if f t then n else 0.
Proof.
  induction n as [|n IH]; [by destruct (f t)|].
  cbn [replicate List.filter]. destruct (f t); simpl; lia.
Qed.

(** X12.  The deferred [<-w.sem] of a goroutine never blocks: in every
    reachable state a goroutine that is in its body finds a token in the
    channel, and taking it makes the goroutine past its release. *)
Theorem release_never_blocks gomaxprocs st i k :
  reachable gomaxprocs st →
  tasks st !! i = Some (k, Body) →
  ∃ n, sem st = S n ∧
    step gomaxprocs st
      {| sem := n; spawning := spawning st;
         tasks := <[i := (k, Released)]> (tasks st) |}.
Proof.
  intros Hreach Hi.
  destruct (reachable_permits_accounted _ _ Hreach) as [Heq _].
  pose proof (executing_Body _ _ _ Hi) as Hex. unfold executing in Heq.
  destruct (sem st) as [|n] eqn:Hsem; [lia|].
  exists n. split; [done|]. by eapply step_receive.
Qed.

(** X13.  When no spawner holds a token it has not used and no goroutine is
    in its body (as after [wg.Wait()] on the last batch in flight), the
    channel is empty: every permit has been given back and the whole pool is
    free for the next batch. *)
Theorem quiescent_pool_is_free gomaxprocs st :
  reachable gomaxprocs st →
  spawning st = 0 →
  Forall (λ t, t.2 ≠ Body) (tasks st) →
  sem st = 0.
Proof.
  intros Hreach Hsp Hnone.
  destruct (reachable_permits_accounted _ _ Hreach) as [Heq _].
  unfold executing in Heq. rewrite (executing_no_Body _ Hnone) in Heq. lia.
Qed.

Lemma reachable_bodies gomaxprocs n :
  n ≤ capacity gomaxprocs →
  reachable gomaxprocs
    {| sem := n; spawning := 0; tasks := replicate n (HandleValue, Body) |}.
Proof.
  induction n as [|n IH]; intros Hn; [apply reachable_init|].
  eapply reachable_step.
  - eapply reachable_step; [apply IH; lia|].
    apply step_send. simpl. lia.
  - rewrite replicate_S_end.
    by apply (step_go gomaxprocs
                {| sem := S n; spawning := 1;
                   tasks := replicate n (HandleValue, Body) |} 0 HandleValue).
Qed.

(** X14.  The bound is reached and then holds the spawners back: for every
    value of [GOMAXPROCS] there is a reachable state with
    [GOMAXPROCS + 10] goroutines in their body, and from that state no step
    puts another token into the channel before one is taken out. *)
Theorem pool_can_fill gomaxprocs :
  ∃ st, reachable gomaxprocs st ∧
    executing st = gomaxprocs + 10 ∧
    ∀ st', step gomaxprocs st st' → sem st' ≤ sem st ∧ executing st' ≤ executing st.
Proof.
  exists {| sem := capacity gomaxprocs; spawning := 0;
            tasks := replicate (capacity gomaxprocs) (HandleValue, Body) |}.
  split; [by apply reachable_bodies|]. split.
  { unfold executing; simpl. by rewrite count_replicate. }
  intros st' Hstep.
  inversion Hstep as [st0 Hlt|st0 n k Hsp|st0 i k n Hi Hsem|st0 i k Hi];
    subst; simpl in *; try lia; try done.
  - unfold executing; simpl. split; [lia|].
    pose proof (executing_insert _ _ _ (k, Released) Hi) as Hins.
    simpl in Hins. lia.
  - unfold executing; simpl. split; [lia|].
    pose proof (executing_insert _ _ _ (k, Exited) Hi) as Hins.
    simpl in Hins. lia.
Qed.

Lemma reachable_released gomaxprocs n :
  reachable gomaxprocs
    {| sem := 0; spawning := 0; tasks := replicate n (HandleValue, Released) |}.
Proof.
  induction n as [|n IH]; [apply reachable_init|].
  eapply reachable_step.
  - eapply reachable_step.
    + eapply reachable_step; [exact IH|].
      apply step_send. unfold capacity. simpl. lia.
    + by apply (step_go gomaxprocs
                  {| sem := 1; spawning := 1;
                     tasks := replicate n (HandleValue, Released) |} 0 HandleValue).
  - rewrite replicate_S_end.
    replace (replicate n (HandleValue, Released) ++ [(HandleValue, Released)])
      with (<[n := (HandleValue, Released)]>
              (replicate n (HandleValue, Released) ++ [(HandleValue, Body)])).
    + apply (step_receive gomaxprocs
               {| sem := 1; spawning := 0;
                  tasks := replicate n (HandleValue, Released) ++ [(HandleValue, Body)] |}
               n HandleValue 0); [|done].
      simpl. rewrite lookup_app_r by (by rewrite length_replicate).
      by rewrite length_replicate, Nat.sub_diag.
    + rewrite insert_app_r_alt by (by rewrite length_replicate).
      by rewrite length_replicate, Nat.sub_diag.
Qed.

(** X15.  The permits bound the goroutines in their body, not the goroutines
    alive: the deferred function gives the permit back before it calls
    [wg.Done()], so for every n there is a reachable state in which n
    goroutines have not ended yet while the channel is empty and none of
    them counts against the pool. *)
Theorem live_goroutines_unbounded gomaxprocs n :
  ∃ st, reachable gomaxprocs st ∧ live st = n ∧ executing st = 0 ∧ sem st = 0.
Proof.
  exists {| sem := 0; spawning := 0; tasks := replicate n (HandleValue, Released) |}.
  split; [apply reachable_released|].
  unfold live, executing; simpl. by rewrite !count_replicate.
Qed.

End PermitPoolFurther.

(** * The further properties on the small instance *)

Module ScenarioFurther.
Import Sample.
#[local] Existing Instance Sample.ext.

Lemma handleWatch_frame_witness :
  ∃ s', outcome (handleWatch (holding objB)
          [inr [[EventAdd; "svc-2"; rawB]]; inl "unexpected end of input";
           inr [[EventDelete; "svc-3"; ""]; [EventAdd; "svc-2"; rawD]]]) = inr s' ∧
    Typ s' = "upstreams" ∧ cache s' !! "svc-1" = Some objB.
Proof.
  eexists. split; [reflexivity|].
  edestruct (handleWatch_frame (holding objB)
    [inr [[EventAdd; "svc-2"; rawB]]; inl "unexpected end of input";
     inr [[EventDelete; "svc-3"; ""]; [EventAdd; "svc-2"; rawD]]])
    as (HT & _ & _ & Hc); [reflexivity|].
  split; [exact HT|]. apply (Hc "svc-1"). by repeat constructor.
Defined.

Lemma handleValue_delete_cached_witness :
  outcome (handleValue (holding objD) [EventDelete; "svc-1"; ""]) =
    inr (removed (holding objD) "svc-1") ∧
  dispatched (events (handleValue (holding objD) [EventDelete; "svc-1"; ""])) =
    [CallQuery "T2" (["delete"; "upstreams;svc-1"; "other"], [("weight", "2")])].
Proof.
  destruct (handleValue_delete_cached (holding objD) "svc-1" "" objD _ eq_refl eq_refl)
    as (Ho & _ & _ & Hd).
  split; [exact Ho | exact Hd].
Defined.

Lemma add_then_delete_witness :
  outcome (handleValues (fresh (inr []))
    [[EventAdd; "svc-1"; rawB]; [EventDelete; "svc-1"; ""]]) = inr (fresh (inr [])) ∧
  dispatched (events (handleValues (fresh (inr []))
    [[EventAdd; "svc-1"; rawB]; [EventDelete; "svc-1"; ""]])) =
    [CallQuery "T1" (["add"; "upstreams;svc-1"; "svc"], [("weight", "1")]);
     CallQuery "T1" (["delete"; "upstreams;svc-1"; "svc"], [("weight", "1")])].
Proof.
  exact (add_then_delete (fresh (inr [])) "svc-1" rawB "" objB _
           eq_refl eq_refl eq_refl eq_refl).
Defined.

Lemma handleWatch_dropped_witness :
  outcome (handleWatch (fresh (inr []))
    [inl "unexpected end of input";
     inr [[EventUpdate; "svc-1"; rawB]; [EventAdd; "svc-1"; "{"];
          [EventAdd; "svc-1"; rawA]; [EventDelete; "svc-1"; ""]]]) =
    inr (fresh (inr [])) ∧
  dispatched (events (handleWatch (fresh (inr []))
    [inl "unexpected end of input";
     inr [[EventUpdate; "svc-1"; rawB]; [EventAdd; "svc-1"; "{"];
          [EventAdd; "svc-1"; rawA]; [EventDelete; "svc-1"; ""]]])) = [].
Proof.
  apply (handleWatch_dropped (fresh (inr []))). cbn [decoded flat_map app].
  repeat apply List.Forall_cons; [..|apply List.Forall_nil].
  - exists EventUpdate, "svc-1", rawB, []. split; [reflexivity|]. left. by split.
  - exists EventAdd, "svc-1", "{", []. split; [reflexivity|].
    right; left. split; [reflexivity | exact I].
  - exists EventAdd, "svc-1", rawA, []. split; [reflexivity|].
    right; left. split; reflexivity.
  - exists EventDelete, "svc-1", "", []. split; [reflexivity|].
    right; right. split; reflexivity.
Defined.

Lemma redelivered_add_noop_witness :
  outcome (handleValues (holding objB) (replicate 3 [EventAdd; "svc-1"; rawB])) =
    inr (holding objB) ∧
  dispatched (events
    (handleValues (holding objB) (replicate 3 [EventAdd; "svc-1"; rawB]))) = [].
Proof.
  exact (redelivered_add_noop (holding objB) "svc-1" rawB objB _ 3
           eq_refl eq_refl eq_refl eq_refl eq_refl eq_refl).
Defined.

Lemma failed_add_not_retried_witness :
  outcome (handleValues (fresh (inr [])) (replicate 3 [EventAdd; "svc-1"; rawM])) =
    inr (stored (fresh (inr [])) "svc-1" objM) ∧
  dispatched (events
    (handleValues (fresh (inr [])) (replicate 3 [EventAdd; "svc-1"; rawM]))) = [].
Proof.
  exact (failed_add_not_retried (fresh (inr [])) "svc-1" rawM objM _
           "malformed arguments" 2
           eq_refl eq_refl eq_refl eq_refl eq_refl eq_refl eq_refl).
Defined.

Lemma cache_holds_last_diffed_witness :
  ∃ s', outcome (handleValues (fresh (inr []))
          ((λ raw, [EventAdd; "svc-1"; raw]) <$> [rawA; rawB; "{"; rawD; rawA])) =
          inr s' ∧
    cache s' !! "svc-1" = Some objD ∧
    store_prevs (cache_ops (events (handleValues (fresh (inr []))
      ((λ raw, [EventAdd; "svc-1"; raw]) <$> [rawA; rawB; "{"; rawD; rawA])))) =
      [None; Some objB].
Proof.
  destruct (cache_holds_last_diffed (fresh (inr [])) "svc-1"
              [rawA; rawB; "{"; rawD; rawA] Scenario.ServiceFilter_Queer_sample
              (Scenario.service_bearing_fresh _)) as (s' & Ho & Hc & Hp).
  exists s'. split; [exact Ho|]. split; [exact Hc | exact Hp].
Defined.

Lemma handleWatch_service_bearing_witness :
  Forall service_bearing_op (cache_ops (events (handleWatch (fresh (inr []))
    [inr [[EventAdd; "svc-1"; rawB]; [EventAdd; "svc-2"; rawM]];
     inl "unexpected end of input";
     inr [[EventAdd; "svc-1"; rawD]; [EventDelete; "svc-2"; ""]]]))).
Proof.
  exact (proj1 (handleWatch_service_bearing (fresh (inr [])) _
                  (Scenario.service_bearing_fresh _))).
Defined.

Lemma Init_dispatches_each_once_witness :
  dispatched (events (Init [fresh (inr [Plain 0; objA; objB; objM]);
                            fresh (inr [objD])])) ≡ₚ
    [CallQuery "T1" (["add"; "upstreams;svc-1"; "svc"], [("weight", "1")]);
     CallQuery "T2" (["add"; "upstreams;svc-1"; "other"], [("weight", "2")])] ∧
  dispatched (events (handleQueries [objD; objM; objB] "upstreams")) ≡ₚ
    [CallQuery "T1" (["add"; "upstreams;svc-1"; "svc"], [("weight", "1")]);
     CallQuery "T2" (["add"; "upstreams;svc-1"; "other"], [("weight", "2")])].
Proof.
  destruct (Init_dispatches_each_once
              [fresh (inr [Plain 0; objA; objB; objM]); fresh (inr [objD])]
              Scenario.ServiceFilter_Queer_sample) as (_ & Hinit & Hbatch).
  { repeat constructor; by eexists. }
  split; [exact Hinit|].
  refine (proj2 (Hbatch "upstreams" [objB; objM; objD] [objD; objM; objB] _ _)).
  - by repeat constructor.
  - apply (Permutation_rev [objD; objM; objB]).
Defined.

End ScenarioFurther.

Module PermitPoolScenarioFurther.
Import PermitPool PermitPoolProperties PermitPoolFurther.

Lemma release_never_blocks_witness :
  ∃ n, sem {| sem := 2; spawning := 0;
              tasks := [(HandleValue, Body); (HandleValue, Body)] |} = S n ∧
    step 4 {| sem := 2; spawning := 0;
              tasks := [(HandleValue, Body); (HandleValue, Body)] |}
      {| sem := n; spawning := 0;
         tasks := [(HandleValue, Body); (HandleValue, Released)] |}.
Proof.
  apply (release_never_blocks 4
           {| sem := 2; spawning := 0;
              tasks := [(HandleValue, Body); (HandleValue, Body)] |} 1 HandleValue).
  - apply (reachable_bodies 4 2). unfold capacity. lia.
  - reflexivity.
Defined.

Lemma quiescent_pool_is_free_witness :
  sem {| sem := 0; spawning := 0;
         tasks := [(HandleValue, Released); (HandleValue, Released)] |} = 0.
Proof.
  apply (quiescent_pool_is_free 4).
  - apply (reachable_released 4 2).
  - reflexivity.
  - by repeat constructor.
Defined.

Lemma pool_can_fill_witness :
  ∃ st, reachable 4 st ∧ executing st = 14 ∧
    ∀ st', step 4 st st' → sem st' ≤ sem st ∧ executing st' ≤ executing st.
Proof. exact (pool_can_fill 4). Defined.

End PermitPoolScenarioFurther.
